(** * BB84 quantum key distribution: the notebook's [simulate_bb84]

    A shallow embedding of [simulate_bb84] (bb84_notebook.ipynb) and of the
    parts of Python, [random] and Qiskit it relies on, followed by the
    properties of the protocol run.

    Layout:
    - [Prob]    : probabilistic programs with exceptions (finite decision
                  trees with rational branch weights), expectation and
                  probability;
    - [Python]  : [range], indexing, item assignment, floats with true
                  division and [round], [random.randint], [for] loops and
                  list comprehensions;
    - [Qiskit]  : one-qubit circuits over x, h and measure, and their
                  execution for one shot;
    - [BB84]    : the simulation itself, step by step;
    - [Channel] : what the loops do at one position (prepare, measure,
                  resend), sifting by positions and the error rate, the
                  definitions the loops are compared with;
    - [Driver]  : the cell that runs the simulation ten times and prints;
    - laws of the probabilistic programs, the loops as comprehensions, the
      simulation as a trial over the channel, and the properties of the
      protocol run. *)

From Stdlib Require Import ZArith QArith Lia Lqa List Bool Sorted.
From stdpp Require Import base list strings pretty.

(* ===================================================================== *)
(** ** Probabilistic programs *)
(* ===================================================================== *)

Module Prob.
Local Open Scope Q_scope.

(** The Python exceptions the modelled code could raise. *)
Inductive exn : Type :=
  IndexError | ZeroDivisionError | ValueError | QiskitError.

(** A run of a program ends by returning a value or by raising. *)
Inductive outcome (A : Type) : Type :=
| Returned (a : A)
| Raised (e : exn).
Arguments Returned {A} a.
Arguments Raised {A} e.

(** A program is a finite tree: it returns, raises, or makes a random
    choice taking the left branch with probability [p] and the right one
    with probability [1 - p]. *)
Inductive prog (A : Type) : Type :=
| Ret (a : A)
| Raise (e : exn)
| Choice (p : Q) (l r : prog A).
Arguments Ret {A} a.
Arguments Raise {A} e.
Arguments Choice {A} p l r.

Fixpoint bind {A B} (m : prog A) (f : A -> prog B) : prog B :=
  match m with
  | Ret a => f a
  | Raise e => Raise e
  | Choice p l r => Choice p (bind l f) (bind r f)
  end.

(** Expectation of a rational-valued function of the outcome. *)
Fixpoint E {A} (m : prog A) (g : outcome A -> Q) : Q :=
  match m with
  | Ret a => g (Returned a)
  | Raise e => g (Raised e)
  | Choice p l r => p * E l g + (1 - p) * E r g
  end.

(** A function of the returned value, worth 0 on a run that raises. *)
Definition on_return {A} (G : A -> Q) (o : outcome A) : Q :=
  match o with
  | Returned a => G a
  | Raised _ => 0
  end.

(** Probability that the program returns a value satisfying [P]. *)
Definition Pr {A} (m : prog A) (P : A -> bool) : Q :=
  E m (on_return (fun a => if P a then 1 else 0)).

(** Probability that the program raises. *)
Definition PrRaise {A} (m : prog A) : Q :=
  E m (fun o => match o with Returned _ => 0 | Raised _ => 1 end).

(** The sum of [f] over the elements of [l]. *)
Definition Qsum {A} (l : list A) (f : A -> Q) : Q :=
  fold_right (fun i acc => f i + acc) 0 l.

(** [(1/2)^n] *)
Fixpoint half_pow (n : nat) : Q :=
  match n with
  | O => 1
  | S n' => (1 # 2) * half_pow n'
  end.

(** [possible m o]: [o] is the outcome of some run of [m]. *)
Inductive possible {A} : prog A -> outcome A -> Prop :=
| possible_ret a : possible (Ret a) (Returned a)
| possible_raise e : possible (Raise e) (Raised e)
| possible_left p l r o : possible l o -> possible (Choice p l r) o
| possible_right p l r o : possible r o -> possible (Choice p l r) o.

(** [always m P]: every run of [m] returns, and the value satisfies [P]. *)
Fixpoint always {A} (m : prog A) (P : A -> Prop) : Prop :=
  match m with
  | Ret a => P a
  | Raise _ => False
  | Choice _ l r => always l P /\ always r P
  end.

(** [fails m]: every run of [m] raises. *)
Fixpoint fails {A} (m : prog A) : Prop :=
  match m with
  | Ret _ => False
  | Raise _ => True
  | Choice _ l r => fails l /\ fails r
  end.

(** Every branch weight lies strictly between 0 and 1: every leaf of the
    tree is reached with positive probability. *)
Fixpoint proper {A} (m : prog A) : Prop :=
  match m with
  | Ret _ | Raise _ => True
  | Choice p l r => (0 < p /\ p < 1) /\ proper l /\ proper r
  end.

(** The outcome of the run in which the random choices come out as
    [choices], [true] for the left branch. *)
Fixpoint replay {A} (m : prog A) (choices : list bool) : option (outcome A) :=
  match m, choices with
  | Ret a, [] => Some (Returned a)
  | Raise e, [] => Some (Raised e)
  | Choice _ l r, c :: choices' => replay (if c then l else r) choices'
  | _, _ => None
  end.

End Prob.
Import Prob.

Notation "x <- m ;; k" := (bind m (fun x => k))
  (at level 20, m at level 99, k at level 200, only parsing).
Notation "' pat <- m ;; k" := (bind m (fun x => match x with pat => k end))
  (at level 20, pat pattern, m at level 99, k at level 200, only parsing).

(* ===================================================================== *)
(** ** Python *)
(* ===================================================================== *)

Module Python.

(** [range(n)] for a Python int [n]: empty when [n <= 0]. *)
Definition range (n : Z) : list nat := seq 0 (Z.to_nat n).

(** [l[i]] for [i >= 0]: IndexError outside the list. *)
Definition getitem {A} (l : list A) (i : nat) : prog A :=
  match l !! i with
  | Some x => Ret x
  | None => Raise IndexError
  end.

(** [l[i] = v] for [i >= 0]: IndexError outside the list. *)
Definition setitem {A} (l : list A) (i : nat) (v : A) : prog (list A) :=
  match l !! i with
  | Some _ => Ret (<[i := v]> l)
  | None => Raise IndexError
  end.

(** [l[i].method(...)] where the method updates the object in place: the
    object in slot [i] becomes [f] of itself. *)
Definition call_at {A} (l : list A) (i : nat) (f : A -> A) : prog (list A) :=
  obj <- getitem l i ;; Ret (<[i := f obj]> l).

(** The integer nearest to [n / d], for [d > 0]; of two equally near, the
    even one. *)
Definition round_half_even (n d : Z) : Z :=
  let q := (n / d)%Z in
  let r := (n mod d)%Z in
  if (2 * r <? d)%Z then q
  else if (d <? 2 * r)%Z then (q + 1)%Z
  else if Z.even q then q else (q + 1)%Z.

(** For [a / b] with [a <> 0] and [b > 0]: the 53-bit significand [m] and
    the powers of two [u] and [p] with [m * u / p] the float nearest to
    [a / b], that is, [2^52 <= |a| * p / (b * u) < 2^53] and [m] is that
    quotient rounded. *)
Definition significand (a b : Z) : Z * Z * Z :=
  let s := (53 + Z.log2 b - Z.log2 (Z.abs a))%Z in
  let p := (2 ^ Z.max s 0)%Z in
  let u0 := (2 ^ Z.max (- s) 0)%Z in
  let u := if (2 ^ 53 * (b * u0) <=? Z.abs a * p)%Z then (2 * u0)%Z else u0 in
  (round_half_even (a * p) (b * u), u, p).

(** A Python float is modelled by its exact value, a rational.
    [round_double x] is the float nearest to the rational [x] (ties to
    even): the significand is rounded to the 53 bits of binary64. The
    exponent is left unbounded: every quotient of two list lengths is in
    the normal range of binary64, where no overflow or underflow
    happens. *)
Definition round_double (x : Q) : Q :=
  let x := Qred x in
  if (Qnum x =? 0)%Z then 0%Q
  else
    let '(m, u, p) := significand (Qnum x) (Z.pos (Qden x)) in
    ((m * u)%Z # Z.to_pos p)%Q.

(** [a / b] on ints: the float nearest to the quotient. *)
Definition truediv (a b : nat) : prog Q :=
  match b with
  | O => Raise ZeroDivisionError
  | S _ => Ret (round_double (Z.of_nat a # Pos.of_nat b))
  end.

(** [round(x, ndigits)] on a float, for [ndigits >= 0]: the exact value of
    [x] rounded to [ndigits] decimal places, ties to even, and then the
    float nearest to that decimal number. *)
Definition py_round (x : Q) (ndigits : Z) : Q :=
  let x := Qred x in
  let scale := (10 ^ ndigits)%Z in
  round_double
    (round_half_even (Qnum x * scale) (Z.pos (Qden x)) # Z.to_pos scale)%Q.

(** A value drawn uniformly from the non-empty list [x :: xs]. *)
Fixpoint uniform {A} (x : A) (xs : list A) : prog A :=
  match xs with
  | [] => Ret x
  | y :: ys => Choice (1 # Pos.of_succ_nat (length xs))%Q (Ret x) (uniform y ys)
  end.

(** [random.randint(a, b)]: uniform on the integers [a..b]. *)
Definition randint (a b : Z) : prog Z :=
  match map (fun k => (a + Z.of_nat k)%Z) (seq 0 (Z.to_nat (b - a + 1))) with
  | [] => Raise ValueError
  | x :: xs => uniform x xs
  end.

(** [for x in xs: s = body(x, s)] *)
Fixpoint for_in {S} (xs : list nat) (body : nat -> S -> prog S) (s : S) : prog S :=
  match xs with
  | [] => Ret s
  | x :: xs' => s' <- body x s ;; for_in xs' body s'
  end.

(** [[f(x) for x in xs]] *)
Fixpoint list_comp {A B} (xs : list A) (f : A -> prog B) : prog (list B) :=
  match xs with
  | [] => Ret []
  | x :: xs' => b <- f x ;; bs <- list_comp xs' f ;; Ret (b :: bs)
  end.

(** [sum(a != b for a, b in zip(l1, l2))] *)
Definition count_differ (l1 l2 : list Z) : nat :=
  sum_list (map (fun ab => if (fst ab =? snd ab)%Z then 0 else 1) (zip l1 l2)).

End Python.
Import Python.

(* ===================================================================== *)
(** ** Qiskit: one qubit, one classical bit *)
(* ===================================================================== *)

Module Qiskit.

(** The instructions the notebook appends to a circuit: [qc.x(0)],
    [qc.h(0)] and [qc.measure(0, 0)]. *)
Inductive gate : Type := GateX | GateH | GateMeasure.

(** [QuantumCircuit(1, 1)] is the empty instruction list. *)
Definition circuit : Type := list gate.
Definition QuantumCircuit : circuit := [].

Definition x (qc : circuit) : circuit := qc ++ [GateX].
Definition h (qc : circuit) : circuit := qc ++ [GateH].
Definition measure (qc : circuit) : circuit := qc ++ [GateMeasure].

(** The state vector (amp0 |0> + amp1 |1>) / sqrt(2)^rt2. Circuits over x and
    h started in |0> only reach such states, so the representation is
    exact. *)
Record qubit : Type := Qubit { amp0 : Z; amp1 : Z; rt2 : nat }.

Definition ket0 : qubit := Qubit 1 0 0.

Definition apply_x (s : qubit) : qubit := Qubit (amp1 s) (amp0 s) (rt2 s).

Definition apply_h (s : qubit) : qubit :=
  Qubit (amp0 s + amp1 s) (amp0 s - amp1 s) (S (rt2 s)).

(** The state has norm 1. *)
Definition normalized (s : qubit) : Prop :=
  (amp0 s * amp0 s + amp1 s * amp1 s = 2 ^ Z.of_nat (rt2 s))%Z.

(** Born rule: probability of reading 0. *)
Definition prob0 (s : qubit) : Q :=
  (inject_Z (amp0 s * amp0 s) / inject_Z (2 ^ Z.of_nat (rt2 s)))%Q.

(** The state after the measurement read [b]. *)
Definition collapse (b : bool) (s : qubit) : qubit :=
  if b then Qubit 0 (Z.sgn (amp1 s)) 0 else Qubit (Z.sgn (amp0 s)) 0 0.

(** A measurement that reads 0 with probability [p]: an outcome of
    probability zero does not occur. *)
Definition sample {A} (p : Q) (on0 on1 : prog A) : prog A :=
  if Qeq_bool p 1%Q then on0
  else if Qeq_bool p 0%Q then on1
  else Choice p on0 on1.

(** One shot of the circuit from state [s] with classical bit [c]; the
    result is the final classical bit. *)
Fixpoint exec (qc : circuit) (s : qubit) (c : Z) : prog Z :=
  match qc with
  | [] => Ret c
  | GateX :: qc' => exec qc' (apply_x s) c
  | GateH :: qc' => exec qc' (apply_h s) c
  | GateMeasure :: qc' =>
      sample (prob0 s) (exec qc' (collapse false s) 0%Z)
                       (exec qc' (collapse true s) 1%Z)
  end.

Definition is_measure (g : gate) : bool :=
  match g with
  | GateMeasure => true
  | GateX | GateH => false
  end.

(** [int(list(backend.run(qc, shots=1).result().get_counts().keys())[0])]:
    with one shot the counts hold one key, the classical bit read. A
    circuit without a measurement has no counts, and [get_counts()] raises
    QiskitError. *)
Definition run_one_shot (qc : circuit) : prog Z :=
  if existsb is_measure qc then exec qc ket0 0%Z else Raise QiskitError.

End Qiskit.
Import Qiskit.

(* ===================================================================== *)
(** ** The simulation *)
(* ===================================================================== *)

Module BB84.

(** Step 2, loop body: Alice prepares the state of position [i]. *)
Definition prepare_body (alice_bits alice_bases : list Z)
    (i : nat) (circuits : list circuit) : prog (list circuit) :=
  let qc := QuantumCircuit in
  bit <- getitem alice_bits i ;;
  let qc := if (bit =? 1)%Z then x qc else qc in
  basis <- getitem alice_bases i ;;
  let qc := if (basis =? 1)%Z then h qc else qc in
  Ret (circuits ++ [qc]).

(** Step 3, first half of the loop body: Eve's measurement is appended
    to the circuit in flight. *)
Definition eve_measure (eve_bases : list Z)
    (i : nat) (circuits : list circuit) : prog (list circuit) :=
  basis <- getitem eve_bases i ;;
  circuits <- (if (basis =? 1)%Z then call_at circuits i h else Ret circuits) ;;
  call_at circuits i measure.

(** Step 3, second half of the loop body: a new circuit replaces the one
    in flight. *)
Definition eve_resend (eve_bases : list Z)
    (i : nat) (circuits : list circuit) : prog (list circuit) :=
  let new_qc := QuantumCircuit in
  intercepted_bit <- randint 0 1 ;;
  let new_qc := if (intercepted_bit =? 1)%Z then x new_qc else new_qc in
  basis <- getitem eve_bases i ;;
  let new_qc := if (basis =? 1)%Z then h new_qc else new_qc in
  setitem circuits i new_qc.

Definition eve_body (eve_bases : list Z)
    (i : nat) (circuits : list circuit) : prog (list circuit) :=
  circuits <- eve_measure eve_bases i circuits ;;
  eve_resend eve_bases i circuits.

(** Step 4, loop body: Bob measures position [i]. *)
Definition bob_body (bob_bases : list Z)
    (i : nat) (st : list circuit * list Z) : prog (list circuit * list Z) :=
  let '(circuits, bob_results) := st in
  basis <- getitem bob_bases i ;;
  circuits <- (if (basis =? 1)%Z then call_at circuits i h else Ret circuits) ;;
  circuits <- call_at circuits i measure ;;
  qc <- getitem circuits i ;;
  measured_bit <- run_one_shot qc ;;
  Ret (circuits, bob_results ++ [measured_bit]).

(** Step 5, loop body: keep position [i] when the bases agree. *)
Definition sift_body (alice_bits alice_bases bob_bases bob_results : list Z)
    (i : nat) (st : list Z * list Z) : prog (list Z * list Z) :=
  let '(sifted_key_alice, sifted_key_bob) := st in
  a <- getitem alice_bases i ;;
  b <- getitem bob_bases i ;;
  if (a =? b)%Z then
    bit <- getitem alice_bits i ;;
    res <- getitem bob_results i ;;
    Ret (sifted_key_alice ++ [bit], sifted_key_bob ++ [res])
  else Ret (sifted_key_alice, sifted_key_bob).

(** Step 6. *)
Definition qber_of (sifted_key_alice sifted_key_bob : list Z) : prog Q :=
  if (length sifted_key_alice =? 0)%nat then Ret 0%Q
  else
    let errors := count_differ sifted_key_alice sifted_key_bob in
    truediv errors (length sifted_key_alice).

(** Steps 2, 3 (with Eve's bases given), 4 and 5 as loops over
    [range(n_bits)]. *)
Definition prepare_loop (n_bits : Z) (alice_bits alice_bases : list Z)
  : prog (list circuit) :=
  for_in (range n_bits) (prepare_body alice_bits alice_bases) [].

Definition eve_loop (n_bits : Z) (eve_bases : list Z) (circuits : list circuit)
  : prog (list circuit) :=
  for_in (range n_bits) (eve_body eve_bases) circuits.

Definition bob_loop (n_bits : Z) (bob_bases : list Z) (circuits : list circuit)
  : prog (list circuit * list Z) :=
  for_in (range n_bits) (bob_body bob_bases) (circuits, []).

Definition sift_loop (n_bits : Z)
    (alice_bits alice_bases bob_bases bob_results : list Z)
  : prog (list Z * list Z) :=
  for_in (range n_bits)
         (sift_body alice_bits alice_bases bob_bases bob_results) ([], []).

Definition random_bits (n_bits : Z) : prog (list Z) :=
  list_comp (range n_bits) (fun _ => randint 0 1).

Definition simulate_bb84 (n_bits : Z) (eavesdrop : bool)
  : prog (list Z * list Z * Q) :=
  (* Step 1 *)
  alice_bits <- random_bits n_bits ;;
  alice_bases <- random_bits n_bits ;;
  (* Step 2 *)
  circuits <- prepare_loop n_bits alice_bits alice_bases ;;
  (* Step 3 *)
  circuits <- (if eavesdrop then
                 eve_bases <- random_bits n_bits ;;
                 eve_loop n_bits eve_bases circuits
               else Ret circuits) ;;
  (* Step 4 *)
  bob_bases <- random_bits n_bits ;;
  '(circuits, bob_results) <- bob_loop n_bits bob_bases circuits ;;
  (* Step 5 *)
  '(sifted_key_alice, sifted_key_bob) <-
    sift_loop n_bits alice_bits alice_bases bob_bases bob_results ;;
  (* Step 6 *)
  qber <- qber_of sifted_key_alice sifted_key_bob ;;
  Ret (sifted_key_alice, sifted_key_bob, qber).

(** [simulate_bb84] with the lists of the run, which the function keeps
    in local variables, returned next to its result: the same steps in the
    same order. *)
Definition simulate_bb84_locals (n_bits : Z) (eavesdrop : bool)
  : prog (list Z * list Z * list Z * list Z * (list Z * list Z * Q)) :=
  (* Step 1 *)
  alice_bits <- random_bits n_bits ;;
  alice_bases <- random_bits n_bits ;;
  (* Step 2 *)
  circuits <- prepare_loop n_bits alice_bits alice_bases ;;
  (* Step 3 *)
  circuits <- (if eavesdrop then
                 eve_bases <- random_bits n_bits ;;
                 eve_loop n_bits eve_bases circuits
               else Ret circuits) ;;
  (* Step 4 *)
  bob_bases <- random_bits n_bits ;;
  '(circuits, bob_results) <- bob_loop n_bits bob_bases circuits ;;
  (* Step 5 *)
  '(sifted_key_alice, sifted_key_bob) <-
    sift_loop n_bits alice_bits alice_bases bob_bases bob_results ;;
  (* Step 6 *)
  qber <- qber_of sifted_key_alice sifted_key_bob ;;
  Ret (alice_bits, alice_bases, bob_bases, bob_results,
       (sifted_key_alice, sifted_key_bob, qber)).

End BB84.
Import BB84.

(* ===================================================================== *)
(** ** The channel seen position by position *)
(* ===================================================================== *)

(** What the loops of [simulate_bb84] do at one position, named after the
    roles of the qubit channel: these are the definitions the loops are
    compared with below. *)
Module Channel.

(** The state Alice prepares from [(bit, basis)]: x when the bit is 1,
    then h when the basis is 1. *)
Definition prepare (bit basis : Z) : circuit :=
  let qc := QuantumCircuit in
  let qc := if (bit =? 1)%Z then x qc else qc in
  if (basis =? 1)%Z then h qc else qc.

(** A measurement in [basis] appended to the circuit: h when the basis is
    1, then measure. *)
Definition measure_in (basis : Z) (qc : circuit) : circuit :=
  measure (if (basis =? 1)%Z then h qc else qc).

(** The classical bit read when the state is measured in [basis]. *)
Definition measure_state (qc : circuit) (basis : Z) : prog Z :=
  run_one_shot (measure_in basis qc).

(** Intercept-resend as a function of Eve's basis alone: a fresh
    uniformly random bit is prepared in that basis. *)
Definition resend (basis : Z) : prog circuit :=
  bit <- randint 0 1 ;; Ret (prepare bit basis).

Definition resend_all (eve_bases : list Z) : prog (list circuit) :=
  list_comp eve_bases resend.

(** One shot of each circuit, in order. *)
Definition measure_all (circuits : list circuit) : prog (list Z) :=
  list_comp circuits run_one_shot.

(** 1 when the two bits differ, 0 when they agree. *)
Definition differ (alice_bit bob_bit : Z) : Q :=
  if (alice_bit =? bob_bit)%Z then 0%Q else 1%Q.

(** Bob's bit at position [i] differs from [bit]. *)
Definition differs_at (i : nat) (bit : Z) (bob_results : list Z) : bool :=
  match bob_results !! i with
  | Some res => negb (res =? bit)%Z
  | None => false
  end.

(** Position [i] is one where Alice's and Bob's bases agree. *)
Definition same_basis (alice_bases bob_bases : list Z) (i : nat) : bool :=
  (nth i alice_bases 0 =? nth i bob_bases 0)%Z.

(** The positions kept by sifting, in increasing order. *)
Definition kept (n_bits : Z) (alice_bases bob_bases : list Z) : list nat :=
  List.filter (same_basis alice_bases bob_bases) (range n_bits).

(** [count(alice_bases[i] == bob_bases[i] for i in range(n_bits))] *)
Definition count_matching (n_bits : Z) (alice_bases bob_bases : list Z) : nat :=
  sum_list (map (fun i => if same_basis alice_bases bob_bases i then 1 else 0)
                (range n_bits)).

(** The values of [l] at the given positions. *)
Definition pick (l : list Z) (positions : list nat) : list Z :=
  map (fun i => nth i l 0%Z) positions.

(** The error rate of a sifted key pair. *)
Definition error_rate (sifted_alice sifted_bob : list Z) : Q :=
  match length sifted_alice with
  | O => 0
  | S _ => Z.of_nat (count_differ sifted_alice sifted_bob)
           # Pos.of_nat (length sifted_alice)
  end%Q.

(** The QBER as step 6 returns it: the float nearest to the error rate. *)
Definition qber_float (sifted_alice sifted_bob : list Z) : Q :=
  round_double (error_rate sifted_alice sifted_bob).

(** One trial in terms of the channel: random bits and bases, the states
    Bob receives (Alice's, or Eve's replacements), Bob's measurements,
    sifting and the error rate. *)
Definition trial (n_bits : Z) (eavesdrop : bool) : prog (list Z * list Z * Q) :=
  alice_bits <- random_bits n_bits ;;
  alice_bases <- random_bits n_bits ;;
  states <- (if eavesdrop then
               eve_bases <- random_bits n_bits ;;
               resend_all eve_bases
             else Ret (zip_with prepare alice_bits alice_bases)) ;;
  bob_bases <- random_bits n_bits ;;
  bob_results <- measure_all (zip_with measure_in bob_bases states) ;;
  let positions := kept n_bits alice_bases bob_bases in
  let sifted_alice := pick alice_bits positions in
  let sifted_bob := pick bob_results positions in
  Ret (sifted_alice, sifted_bob, qber_float sifted_alice sifted_bob).

(** The result [t] is what sifting and the error rate make of some
    transmission of [n_bits] positions: Alice's bits and bases, Bob's
    bases and the bits he read; without eavesdropping Bob read Alice's bit
    wherever the bases agree. *)
Definition arises_from (n_bits : Z) (eavesdrop : bool)
    (t : list Z * list Z * Q) : Prop :=
  exists alice_bits alice_bases bob_bases bob_results : list Z,
    length alice_bits = Z.to_nat n_bits /\
    length alice_bases = Z.to_nat n_bits /\
    length bob_bases = Z.to_nat n_bits /\
    length bob_results = Z.to_nat n_bits /\
    (eavesdrop = false ->
     forall i, i < Z.to_nat n_bits ->
               same_basis alice_bases bob_bases i = true ->
               nth i bob_results 0%Z = nth i alice_bits 0%Z) /\
    let positions := kept n_bits alice_bases bob_bases in
    let sifted_alice := pick alice_bits positions in
    let sifted_bob := pick bob_results positions in
    t = (sifted_alice, sifted_bob, qber_float sifted_alice sifted_bob).

End Channel.
Import Channel.

Definition is_bit (b : Z) : Prop := b = 0%Z \/ b = 1%Z.

Arguments randint : simpl never.
Arguments run_one_shot : simpl never.
Arguments prepare : simpl never.
Arguments measure_in : simpl never.

(* ===================================================================== *)
(** ** The notebook's run of the simulation *)
(* ===================================================================== *)

Module Driver.

(** The values handed to [print]: a string, a list of ints, a float. *)
Inductive pyval : Type :=
| VStr (s : string)
| VList (l : list Z)
| VFloat (q : Q).

(** Standard output as the list of the [print] calls made, each with its
    arguments. *)
Definition stdout : Type := list (list pyval).

Definition print (args : list pyval) (out : stdout) : stdout := out ++ [args].

Definition newline : string := String (Ascii.ascii_of_nat 10) EmptyString.

(** The body of [for i in range(10)]. *)
Definition iteration_body (i : nat) (out : stdout) : prog stdout :=
  let out :=
    print [VStr (newline +:+ "Iteration " +:+ pretty (Z.of_nat i + 1)%Z)] out in
  let out := print [VStr "--- Without Eavesdropping ---"] out in
  '(key_a, key_b, qber) <- simulate_bb84 10 false ;;
  let out := print [VStr "Alice's key:"; VList key_a] out in
  let out := print [VStr "Bob's key:  "; VList key_b] out in
  let out := print [VStr "QBER:"; VFloat (py_round qber 4)] out in
  let out := print [VStr "--- With Eavesdropping ---"] out in
  '(key_a_eve, key_b_eve, qber_eve) <- simulate_bb84 10 true ;;
  let out := print [VStr "Alice's key:"; VList key_a_eve] out in
  let out := print [VStr "Bob's key:  "; VList key_b_eve] out in
  let out := print [VStr "QBER:"; VFloat (py_round qber_eve 4)] out in
  Ret out.

(** The cell that runs the simulations for 10 iterations. *)
Definition run_simulations : prog stdout :=
  for_in (range 10) iteration_body [].

(** What one iteration prints, given the two results. *)
Definition iteration_output (i : nat)
    (results : (list Z * list Z * Q) * (list Z * list Z * Q)) : stdout :=
  let '((key_a, key_b, qber), (key_a_eve, key_b_eve, qber_eve)) := results in
  [ [VStr (newline +:+ "Iteration " +:+ pretty (Z.of_nat i + 1)%Z)];
    [VStr "--- Without Eavesdropping ---"];
    [VStr "Alice's key:"; VList key_a];
    [VStr "Bob's key:  "; VList key_b];
    [VStr "QBER:"; VFloat (py_round qber 4)];
    [VStr "--- With Eavesdropping ---"];
    [VStr "Alice's key:"; VList key_a_eve];
    [VStr "Bob's key:  "; VList key_b_eve];
    [VStr "QBER:"; VFloat (py_round qber_eve 4)] ].

End Driver.
Import Driver.

(** [q^n] *)
Fixpoint Qpow (q : Q) (n : nat) : Q :=
  match n with
  | O => 1%Q
  | S n' => (q * Qpow q n')%Q
  end.

(** 1 when the two bits agree, 0 when they differ. *)
Definition agree (alice_bit bob_bit : Z) : Q :=
  if (alice_bit =? bob_bit)%Z then 1%Q else 0%Q.

(** 1 when sifting leaves Alice and Bob with the same key, 0 otherwise. *)
Definition undetected (alice_bits alice_bases bob_bases bob_results : list Z) : Q :=
  let positions :=
    List.filter (same_basis alice_bases bob_bases)
                (seq 0 (length alice_bases)) in
  if bool_decide (pick alice_bits positions = pick bob_results positions)
  then 1%Q else 0%Q.

(** The count of positions of the sifted keys where the sender's bit is
    not the receiver's. *)
Definition disagreements (sender receiver : list Z) : nat :=
  length (List.filter (fun i => negb (nth i sender 0 =? nth i receiver 0)%Z)
                      (seq 0 (length sender))).

(** Intercept-resend as the description has it, for comparison with
    [eve_body]: the state in flight is measured in Eve's basis, the bit
    read is dropped, and a fresh uniformly random bit is prepared in the
    same basis. *)
Definition intercept_measure_resend (basis : Z) (state : circuit)
  : prog circuit :=
  measured_bit <- measure_state state basis ;;
  resend basis.

(** The three components of the result of [simulate_bb84]. *)
Definition key_alice (t : list Z * list Z * Q) : list Z := fst (fst t).
Definition key_bob (t : list Z * list Z * Q) : list Z := snd (fst t).
Definition qber_value (t : list Z * list Z * Q) : Q := snd t.

(* ===================================================================== *)
(** ** Laws of probabilistic programs *)
(* ===================================================================== *)

Section ProbLaws.
Local Open Scope Q_scope.
Context {A B : Type}.

Lemma bind_ret_r (m : prog A) : bind m (@Ret A) = m.
Proof. induction m; simpl; congruence. Qed.

Lemma bind_ext (m : prog A) (f g : A -> prog B) :
  (forall a, f a = g a) -> bind m f = bind m g.
Proof. intros Hfg. induction m; simpl; congruence. Qed.

Lemma bind_ext_always (m : prog A) (P : A -> Prop) (f g : A -> prog B) :
  always m P -> (forall a, P a -> f a = g a) -> bind m f = bind m g.
Proof.
  intros Hm Hfg. induction m as [a|e|p l IHl r IHr]; simpl in *.
  - auto.
  - contradiction.
  - destruct Hm as [Hl Hr]. rewrite IHl, IHr; auto.
Qed.

Lemma always_impl (m : prog A) (P P' : A -> Prop) :
  always m P -> (forall a, P a -> P' a) -> always m P'.
Proof.
  intros Hm HP. induction m; simpl in *; intuition auto.
Qed.

Lemma always_and (m : prog A) (P P' : A -> Prop) :
  always m P -> always m P' -> always m (fun a => P a /\ P' a).
Proof.
  induction m; simpl in *; intuition auto.
Qed.

Lemma always_bind (m : prog A) (f : A -> prog B) (P : A -> Prop) (R : B -> Prop) :
  always m P -> (forall a, P a -> always (f a) R) -> always (bind m f) R.
Proof.
  intros Hm Hf. induction m; simpl in *; intuition auto.
Qed.

Lemma always_possible (m : prog A) (P : A -> Prop) :
  always m P <-> (forall o, possible m o -> exists a, o = Returned a /\ P a).
Proof.
  split.
  - intros Hm o Ho. induction Ho; simpl in Hm.
    + eauto.
    + contradiction.
    + apply IHHo, Hm.
    + apply IHHo, Hm.
  - induction m as [a|e|p l IHl r IHr]; intros Hall; simpl.
    + destruct (Hall _ (possible_ret a)) as (a' & Heq & Ha). congruence.
    + destruct (Hall _ (possible_raise e)) as (a' & Heq & _). discriminate.
    + split; [apply IHl | apply IHr]; intros o Ho; apply Hall;
        [now apply possible_left | now apply possible_right].
Qed.

Lemma E_ext (m : prog A) (g g' : outcome A -> Q) :
  (forall o, g o == g' o) -> E m g == E m g'.
Proof.
  intros Hg. induction m as [a|e|p l IHl r IHr]; simpl; auto.
  rewrite IHl, IHr. reflexivity.
Qed.

Lemma E_ext_always (m : prog A) (P : A -> Prop) (g g' : outcome A -> Q) :
  always m P -> (forall a, P a -> g (Returned a) == g' (Returned a)) ->
  E m g == E m g'.
Proof.
  intros Hm Hg. induction m as [a|e|p l IHl r IHr]; simpl in *.
  - auto.
  - contradiction.
  - destruct Hm as [Hl Hr]. rewrite IHl, IHr by assumption. reflexivity.
Qed.

Lemma E_const (m : prog A) (g : outcome A -> Q) (c : Q) :
  (forall o, g o == c) -> E m g == c.
Proof.
  intros Hg. induction m as [a|e|p l IHl r IHr]; simpl; auto.
  rewrite IHl, IHr. ring.
Qed.

Lemma E_bind (m : prog A) (f : A -> prog B) (g : outcome B -> Q) :
  E (bind m f) g =
  E m (fun o => match o with
                | Returned a => E (f a) g
                | Raised e => g (Raised e)
                end).
Proof. induction m; simpl; congruence. Qed.

(** A program all of whose runs return a value satisfying [P] does so
    with probability one. *)
Lemma always_Pr (m : prog A) (P : A -> bool) :
  always m (fun a => P a = true) -> Pr m P == 1.
Proof.
  intros Hm. unfold Pr.
  transitivity (E m (fun _ => 1)).
  - eapply E_ext_always; [exact Hm |].
    intros a Ha. simpl. now rewrite Ha.
  - now apply E_const.
Qed.

Lemma always_PrRaise (m : prog A) (P : A -> Prop) :
  always m P -> PrRaise m == 0.
Proof.
  intros Hm. unfold PrRaise.
  transitivity (E m (fun _ => 0)).
  - eapply E_ext_always; [exact Hm |]. reflexivity.
  - now apply E_const.
Qed.

End ProbLaws.

Lemma bind_assoc {A B C} (m : prog A) (f : A -> prog B) (g : B -> prog C) :
  bind (bind m f) g = bind m (fun a => bind (f a) g).
Proof. induction m; simpl; congruence. Qed.

(* ===================================================================== *)
(** ** Facts about the Python layer *)
(* ===================================================================== *)

Lemma randint_0_1 : randint 0 1 = Choice (1 # 2) (Ret 0%Z) (Ret 1%Z).
Proof. reflexivity. Qed.

Lemma E_randint_0_1 (g : outcome Z -> Q) :
  E (randint 0 1) g
  = ((1 # 2) * g (Returned 0%Z) + (1 - (1 # 2)) * g (Returned 1%Z))%Q.
Proof. reflexivity. Qed.

Lemma always_randint_0_1 : always (randint 0 1) is_bit.
Proof. rewrite randint_0_1. simpl. unfold is_bit. auto. Qed.

Section Indexing.
Context {A : Type}.
Implicit Types (l : list A) (i : nat).

Lemma getitem_Some {l i a} : l !! i = Some a -> getitem l i = Ret a.
Proof. intros Hl. unfold getitem. now rewrite Hl. Qed.

Lemma setitem_Some {l i a} v : l !! i = Some a -> setitem l i v = Ret (<[i := v]> l).
Proof. intros Hl. unfold setitem. now rewrite Hl. Qed.

Lemma call_at_Some {l i a} (f : A -> A) :
  l !! i = Some a -> call_at l i f = Ret (<[i := f a]> l).
Proof. intros Hl. unfold call_at. now rewrite (getitem_Some Hl). Qed.

Lemma lookup_in_range l {i} : i < length l -> exists a, l !! i = Some a.
Proof. intros Hi. now apply lookup_lt_is_Some_2 in Hi as [a Ha]; eauto. Qed.
End Indexing.

Lemma always_list_comp {A B} (xs : list A) (f : A -> prog B) (P : B -> Prop) :
  (forall i, always (f i) P) ->
  always (list_comp xs f) (fun l => length l = length xs /\ Forall P l).
Proof.
  intros Hf. induction xs as [|i xs IH]; simpl.
  - split; [reflexivity | constructor].
  - eapply always_bind; [apply Hf |]. intros b Hb.
    eapply always_bind; [apply IH |]. intros bs [Hlen Hbs]. simpl.
    split; [now rewrite Hlen | now constructor].
Qed.

Lemma always_random_bits (n_bits : Z) :
  always (random_bits n_bits)
         (fun l => length l = Z.to_nat n_bits /\ Forall is_bit l).
Proof.
  unfold random_bits.
  eapply always_impl; [apply always_list_comp with (P := is_bit) |].
  - intros _. apply always_randint_0_1.
  - unfold range. intros l [Hlen Hl]. now rewrite length_seq in Hlen.
Qed.

Lemma count_differ_le (l1 l2 : list Z) : count_differ l1 l2 <= length l1.
Proof.
  unfold count_differ. revert l2.
  induction l1 as [|a l1 IH]; intros [|b l2]; simpl; try lia.
  specialize (IH l2). destruct (a =? b)%Z; simpl; lia.
Qed.

Lemma count_differ_same (l : list Z) : count_differ l l = 0.
Proof.
  unfold count_differ. induction l as [|a l IH]; simpl; [reflexivity |].
  now rewrite Z.eqb_refl, IH.
Qed.


(* ===================================================================== *)
(** ** Floats *)
(* ===================================================================== *)

Section Floats.

(** Rounding to the nearest integer is off by at most a half. *)
Lemma round_half_even_near (n d : Z) :
  (0 < d)%Z ->
  (- d <= 2 * (round_half_even n d * d - n) <= d)%Z.
Proof.
  intros Hd. unfold round_half_even.
  pose proof (Z.div_mod n d ltac:(lia)) as Hdiv.
  pose proof (Z.mod_pos_bound n d Hd) as Hmod.
  destruct (Z.ltb_spec (2 * (n mod d)) d);
    [| destruct (Z.ltb_spec d (2 * (n mod d)));
       [| destruct (Z.even (n / d))]]; lia.
Qed.

(** The rounded quotient does not pass an integer bound of the quotient. *)
Lemma round_half_even_le (n d k : Z) :
  (0 < d)%Z -> (n <= k * d)%Z -> (round_half_even n d <= k)%Z.
Proof.
  intros Hd Hn. pose proof (round_half_even_near n d Hd) as Hnear. nia.
Qed.

Lemma round_half_even_ge (n d k : Z) :
  (0 < d)%Z -> (k * d <= n)%Z -> (k <= round_half_even n d)%Z.
Proof.
  intros Hd Hn. pose proof (round_half_even_near n d Hd) as Hnear. nia.
Qed.

(** The significand has 53 bits and is the scaled quotient rounded. *)
Lemma significand_spec (a b : Z) :
  (0 < a)%Z -> (0 < b)%Z ->
  exists m u p : Z,
    significand a b = (m, u, p)
    /\ (0 < u)%Z /\ (0 < p)%Z
    /\ (2 ^ 52 * (b * u) <= a * p < 2 ^ 53 * (b * u))%Z
    /\ (- (b * u) <= 2 * (m * (b * u) - a * p) <= b * u)%Z
    /\ ((a <= b)%Z -> exists k : Z, p = (u * k)%Z).
Proof.
  intros Ha Hb. unfold significand. rewrite (Z.abs_eq a) by lia.
  set (s := (53 + Z.log2 b - Z.log2 a)%Z).
  set (p := (2 ^ Z.max s 0)%Z). set (u0 := (2 ^ Z.max (- s) 0)%Z).
  pose proof (Z.log2_spec a Ha) as [Ha1 Ha2].
  pose proof (Z.log2_spec b Hb) as [Hb1 Hb2].
  pose proof (Z.log2_nonneg a) as Hla. pose proof (Z.log2_nonneg b) as Hlb.
  assert (Hp : (0 < p)%Z) by (apply Z.pow_pos_nonneg; lia).
  assert (Hu0 : (0 < u0)%Z) by (apply Z.pow_pos_nonneg; lia).
  assert (Hpow : (2 ^ Z.log2 a * p = 2 ^ 53 * (2 ^ Z.log2 b * u0))%Z).
  { unfold p, u0. rewrite <- !Z.pow_add_r by lia. f_equal. lia. }
  rewrite Z.pow_succ_r in Ha2, Hb2 by assumption.
  set (A := (2 ^ Z.log2 a)%Z) in *. set (B := (2 ^ Z.log2 b)%Z) in *.
  assert (HA : (0 < A)%Z) by (apply Z.pow_pos_nonneg; lia).
  assert (HB : (0 < B)%Z) by (apply Z.pow_pos_nonneg; lia).
  assert (Hlow : (2 ^ 52 * (b * u0) < a * p)%Z) by nia.
  assert (Hhigh : (a * p < 2 ^ 54 * (b * u0))%Z) by nia.
  set (u := if (2 ^ 53 * (b * u0) <=? a * p)%Z then (2 * u0)%Z else u0).
  assert (Hu : (0 < u)%Z) by (unfold u; destruct (_ <=? _)%Z; lia).
  assert (Hnorm : (2 ^ 52 * (b * u) <= a * p < 2 ^ 53 * (b * u))%Z).
  { unfold u. destruct (Z.leb_spec (2 ^ 53 * (b * u0)) (a * p)); lia. }
  exists (round_half_even (a * p) (b * u)), u, p.
  split; [reflexivity |]. split; [exact Hu |]. split; [exact Hp |].
  split; [exact Hnorm |]. split.
  - apply round_half_even_near. now apply Z.mul_pos_pos.
  - intros Hab.
    assert (Hs : (53 <= s)%Z).
    { pose proof (Z.log2_le_mono a b Hab). unfold s. lia. }
    assert (Hu01 : u0 = 1%Z).
    { unfold u0. now replace (Z.max (- s) 0) with 0%Z by lia. }
    assert (Hp2 : p = (2 * 2 ^ (s - 1))%Z).
    { unfold p. rewrite <- Z.pow_succ_r by lia. f_equal. lia. }
    assert (Hu12 : u = 2%Z \/ u = 1%Z).
    { unfold u. destruct (_ <=? _)%Z; lia. }
    destruct Hu12 as [-> | ->].
    + exists (2 ^ (s - 1))%Z. lia.
    + exists p. lia.
Qed.

Local Open Scope Q_scope.

(** The float nearest to [x] depends on the value of [x] only. *)
Lemma round_double_comp (x y : Q) : x == y -> round_double x = round_double y.
Proof. intros Hxy. unfold round_double. now rewrite (Qred_complete x y Hxy). Qed.

Lemma round_double_zero (x : Q) : x == 0 -> round_double x = 0.
Proof. intros Hx. now rewrite (round_double_comp x 0 Hx). Qed.

(** A positive rational in lowest terms and its float. *)
Lemma round_double_pos_spec (x : Q) :
  0 < x ->
  exists m u p : Z,
    round_double x = ((m * u)%Z # Z.to_pos p)
    /\ (0 < u)%Z /\ (0 < p)%Z
    /\ let a := Qnum (Qred x) in
       let b := Z.pos (Qden (Qred x)) in
       (0 < a)%Z
       /\ (2 ^ 52 * (b * u) <= a * p < 2 ^ 53 * (b * u))%Z
       /\ (- (b * u) <= 2 * (m * (b * u) - a * p) <= b * u)%Z
       /\ ((a <= b)%Z -> exists k : Z, p = (u * k)%Z).
Proof.
  intros Hx. rewrite <- (Qred_correct x) in Hx.
  unfold round_double.
  assert (Ha : (0 < Qnum (Qred x))%Z).
  { unfold Qlt in Hx. cbn in Hx. lia. }
  destruct (significand_spec (Qnum (Qred x)) (Z.pos (Qden (Qred x))) Ha
              ltac:(lia))
    as (m & u & p & Hsig & Hu & Hp & Hnorm & Hnear & Hdiv).
  rewrite Hsig. replace (Qnum (Qred x) =? 0)%Z with false by lia.
  exists m, u, p. cbv zeta. repeat split; try assumption; lia.
Qed.

(** The float nearest to a rational that is not negative is within the
    relative error [2^-53] of it. *)
Lemma round_double_error (x : Q) :
  0 <= x ->
  x * (1 - (1 # 2 ^ 53)) <= round_double x
  /\ round_double x <= x * (1 + (1 # 2 ^ 53)).
Proof.
  intros Hx. destruct (Qle_lt_or_eq _ _ Hx) as [Hpos | Hzero].
  - destruct (round_double_pos_spec x Hpos)
      as (m & u & p & Hr & Hu & Hp & Ha & Hnorm & Hnear & _).
    rewrite Hr. rewrite <- (Qred_correct x).
    destruct (Qred x) as [a b]. cbn [Qnum Qden] in *.
    let c := eval vm_compute in (1 - (1 # 2 ^ 53)) in
    change (1 - (1 # 2 ^ 53)) with c.
    let c := eval vm_compute in (1 + (1 # 2 ^ 53)) in
    change (1 + (1 # 2 ^ 53)) with c.
    unfold Qle, Qmult. cbn [Qnum Qden].
    rewrite !Pos2Z.inj_mul, Z2Pos.id by assumption.
    change (2 ^ 52)%Z with 4503599627370496%Z in Hnorm.
    change (2 ^ 53)%Z with 9007199254740992%Z in Hnorm.
    split; lia.
  - rewrite (round_double_zero x) by now symmetry.
    rewrite <- Hzero. split; discriminate.
Qed.

(** The float of a positive rational is positive. *)
Lemma round_double_pos (x : Q) : 0 < x -> 0 < round_double x.
Proof.
  intros Hpos.
  destruct (round_double_pos_spec x Hpos)
    as (m & u & p & Hr & Hu & Hp & Ha & Hnorm & Hnear & _).
  rewrite Hr. unfold Qlt. cbn [Qnum Qden].
  destruct (Qred x) as [a b]. cbn [Qnum Qden] in *. nia.
Qed.

(** The float of a rational in [0, 1] is in [0, 1]. *)
Lemma round_double_unit (x : Q) :
  0 <= x <= 1 -> 0 <= round_double x <= 1.
Proof.
  intros [Hx0 Hx1]. destruct (Qle_lt_or_eq _ _ Hx0) as [Hpos | Hzero].
  - split; [apply Qlt_le_weak, round_double_pos, Hpos |].
    destruct (round_double_pos_spec x Hpos)
      as (m & u & p & Hr & Hu & Hp & Ha & Hnorm & Hnear & Hdiv).
    rewrite Hr. rewrite <- (Qred_correct x) in Hx1.
    destruct (Qred x) as [a b]. cbn [Qnum Qden] in *.
    assert (Hab : (a <= Z.pos b)%Z).
    { unfold Qle in Hx1. cbn in Hx1. lia. }
    destruct (Hdiv Hab) as [k Hk].
    unfold Qle. cbn [Qnum Qden]. rewrite Z2Pos.id by assumption.
    subst p.
    assert (Hk : (0 < k)%Z) by nia.
    assert (Hnear' : (2 * (m * Z.pos b - a * k) <= Z.pos b)%Z) by nia.
    assert (Hmk : (m <= k)%Z) by nia.
    nia.
  - rewrite (round_double_zero x) by now symmetry. split; discriminate.
Qed.

Lemma round_double_zero_iff (x : Q) :
  0 <= x -> (round_double x == 0 <-> x == 0).
Proof.
  intros Hx. split.
  - intros Hr. destruct (Qle_lt_or_eq _ _ Hx) as [Hpos | Hzero];
      [| now symmetry].
    apply round_double_pos in Hpos. rewrite Hr in Hpos.
    now apply Qlt_irrefl in Hpos.
  - intros Hz. now rewrite (round_double_zero x Hz).
Qed.

End Floats.

(* ===================================================================== *)
(** ** The loop bodies at a position inside the lists *)
(* ===================================================================== *)

Section Bodies.
Variable i : nat.
Implicit Type circuits : list circuit.

Lemma prepare_body_eq circuits {alice_bits alice_bases bit basis} :
  alice_bits !! i = Some bit -> alice_bases !! i = Some basis ->
  prepare_body alice_bits alice_bases i circuits
  = Ret (circuits ++ [prepare bit basis]).
Proof.
  intros Hbit Hbasis. unfold prepare_body.
  rewrite (getitem_Some Hbit). cbn.
  rewrite (getitem_Some Hbasis). reflexivity.
Qed.

Lemma measure_at_eq {circuits} basis {qc} :
  circuits !! i = Some qc ->
  (cs <- (if (basis =? 1)%Z then call_at circuits i h else Ret circuits) ;;
   call_at cs i measure)
  = Ret (<[i := measure_in basis qc]> circuits).
Proof.
  intros Hqc. unfold measure_in.
  assert (Hi : i < length circuits) by (eapply lookup_lt_Some; eauto).
  destruct (basis =? 1)%Z.
  - rewrite (call_at_Some _ Hqc). cbn.
    erewrite call_at_Some by (now apply list_lookup_insert_eq).
    now rewrite list_insert_insert_eq.
  - simpl. now rewrite (call_at_Some _ Hqc).
Qed.

Lemma eve_measure_eq {circuits eve_bases basis qc} :
  eve_bases !! i = Some basis -> circuits !! i = Some qc ->
  eve_measure eve_bases i circuits
  = Ret (<[i := measure_in basis qc]> circuits).
Proof.
  intros Hbasis Hqc. unfold eve_measure.
  rewrite (getitem_Some Hbasis). cbn.
  now apply measure_at_eq.
Qed.

Lemma eve_resend_eq {circuits eve_bases basis qc} :
  eve_bases !! i = Some basis -> circuits !! i = Some qc ->
  eve_resend eve_bases i circuits
  = (bit <- randint 0 1 ;; Ret (<[i := prepare bit basis]> circuits)).
Proof.
  intros Hbasis Hqc. unfold eve_resend.
  apply bind_ext. intros bit.
  rewrite (getitem_Some Hbasis). cbn.
  now rewrite (setitem_Some _ Hqc).
Qed.

Lemma eve_body_eq {circuits eve_bases basis qc} :
  eve_bases !! i = Some basis -> circuits !! i = Some qc ->
  eve_body eve_bases i circuits
  = (bit <- randint 0 1 ;; Ret (<[i := prepare bit basis]> circuits)).
Proof.
  intros Hbasis Hqc. unfold eve_body.
  assert (Hi : i < length circuits) by (eapply lookup_lt_Some; eauto).
  rewrite (eve_measure_eq Hbasis Hqc). cbn.
  erewrite eve_resend_eq; [| exact Hbasis | now apply list_lookup_insert_eq].
  apply bind_ext. intros bit. now rewrite list_insert_insert_eq.
Qed.

Lemma bob_body_eq {circuits bob_bases} bob_results {basis qc} :
  bob_bases !! i = Some basis -> circuits !! i = Some qc ->
  bob_body bob_bases i (circuits, bob_results)
  = (measured_bit <- run_one_shot (measure_in basis qc) ;;
     Ret (<[i := measure_in basis qc]> circuits, bob_results ++ [measured_bit])).
Proof.
  intros Hbasis Hqc. unfold bob_body.
  assert (Hi : i < length circuits) by (eapply lookup_lt_Some; eauto).
  rewrite (getitem_Some Hbasis). cbn.
  rewrite <- bind_assoc. rewrite (measure_at_eq _ Hqc). cbn.
  erewrite getitem_Some by (now apply list_lookup_insert_eq).
  reflexivity.
Qed.

End Bodies.

Lemma sift_body_eq alice_bits alice_bases bob_bases bob_results i sa sb :
  i < length alice_bits -> i < length alice_bases ->
  i < length bob_bases -> i < length bob_results ->
  sift_body alice_bits alice_bases bob_bases bob_results i (sa, sb)
  = Ret (if same_basis alice_bases bob_bases i
         then (sa ++ [nth i alice_bits 0%Z], sb ++ [nth i bob_results 0%Z])
         else (sa, sb)).
Proof.
  intros H1 H2 H3 H4.
  destruct (lookup_in_range alice_bits H1) as [bit Hbit].
  destruct (lookup_in_range alice_bases H2) as [a Ha].
  destruct (lookup_in_range bob_bases H3) as [b Hb].
  destruct (lookup_in_range bob_results H4) as [res Hres].
  unfold sift_body, same_basis. rewrite !nth_lookup, Hbit, Ha, Hb, Hres. cbn.
  rewrite (getitem_Some Ha). cbn.
  rewrite (getitem_Some Hb). cbn.
  destruct (a =? b)%Z; [| reflexivity].
  rewrite (getitem_Some Hbit). cbn.
  now rewrite (getitem_Some Hres).
Qed.

(* ===================================================================== *)
(** ** The loops over [range(n_bits)] *)
(* ===================================================================== *)

Lemma bind_ret_l {A B} (a : A) (f : A -> prog B) : bind (Ret a) f = f a.
Proof. reflexivity. Qed.

Lemma for_in_cons {S} (k : nat) (ks : list nat) (body : nat -> S -> prog S) (s : S) :
  for_in (k :: ks) body s = (s' <- body k s ;; for_in ks body s').
Proof. reflexivity. Qed.

Lemma resend_all_cons basis rest :
  resend_all (basis :: rest)
  = (bit <- randint 0 1 ;;
     forwarded <- resend_all rest ;;
     Ret (prepare bit basis :: forwarded)).
Proof. unfold resend_all, resend. cbn [list_comp]. now rewrite bind_assoc. Qed.

Lemma measure_all_cons qc rest :
  measure_all (qc :: rest)
  = (bit <- run_one_shot qc ;;
     bits <- measure_all rest ;;
     Ret (bit :: bits)).
Proof. reflexivity. Qed.

Section Loops.
Implicit Types (m k : nat) (circuits : list circuit).

Lemma prepare_loop_from alice_bits alice_bases m : forall k circuits,
  length alice_bits = k + m -> length alice_bases = k + m ->
  for_in (seq k m) (prepare_body alice_bits alice_bases) circuits
  = Ret (circuits ++ zip_with prepare (drop k alice_bits) (drop k alice_bases)).
Proof.
  induction m as [|m IH]; intros k circuits Hbits Hbases.
  - cbn. rewrite (drop_ge alice_bits) by lia. cbn. now rewrite app_nil_r.
  - destruct (lookup_in_range alice_bits (i := k)) as [bit Hbit]; [lia |].
    destruct (lookup_in_range alice_bases (i := k)) as [basis Hbasis]; [lia |].
    rewrite <- cons_seq, for_in_cons.
    rewrite (prepare_body_eq _ _ Hbit Hbasis), bind_ret_l.
    rewrite IH by lia.
    rewrite (drop_S _ _ _ Hbit), (drop_S _ _ _ Hbasis). cbn.
    now rewrite <- app_assoc.
Qed.

Lemma eve_loop_from eve_bases m : forall k circuits,
  length eve_bases = k + m -> length circuits = k + m ->
  for_in (seq k m) (eve_body eve_bases) circuits
  = (forwarded <- resend_all (drop k eve_bases) ;;
     Ret (take k circuits ++ forwarded)).
Proof.
  induction m as [|m IH]; intros k circuits Hbases Hcs.
  - cbn. rewrite (drop_ge eve_bases) by lia. cbn.
    now rewrite app_nil_r, take_ge by lia.
  - destruct (lookup_in_range eve_bases (i := k)) as [basis Hbasis]; [lia |].
    destruct (lookup_in_range circuits (i := k)) as [qc Hqc]; [lia |].
    rewrite <- cons_seq, for_in_cons.
    rewrite (eve_body_eq _ Hbasis Hqc), (drop_S _ _ _ Hbasis).
    rewrite resend_all_cons, !bind_assoc.
    apply bind_ext. intros bit. rewrite bind_ret_l, bind_assoc.
    rewrite IH by (rewrite ?length_insert; lia).
    apply bind_ext. intros forwarded. rewrite bind_ret_l.
    rewrite (take_S_r _ _ (prepare bit basis))
      by (apply list_lookup_insert_eq; lia).
    rewrite take_insert_ge by lia. now rewrite <- app_assoc.
Qed.

Lemma bob_loop_from bob_bases m : forall k circuits bob_results,
  length bob_bases = k + m -> length circuits = k + m ->
  for_in (seq k m) (bob_body bob_bases) (circuits, bob_results)
  = (let measured := zip_with measure_in (drop k bob_bases) (drop k circuits) in
     bits <- measure_all measured ;;
     Ret (take k circuits ++ measured, bob_results ++ bits)).
Proof.
  induction m as [|m IH]; intros k circuits bob_results Hbases Hcs.
  - cbn. rewrite (drop_ge bob_bases) by lia. cbn.
    now rewrite !app_nil_r, take_ge by lia.
  - destruct (lookup_in_range bob_bases (i := k)) as [basis Hbasis]; [lia |].
    destruct (lookup_in_range circuits (i := k)) as [qc Hqc]; [lia |].
    rewrite <- cons_seq, for_in_cons.
    rewrite (bob_body_eq _ _ Hbasis Hqc).
    rewrite (drop_S _ _ _ Hbasis), (drop_S _ _ _ Hqc).
    cbn [zip_with]. cbv zeta. rewrite measure_all_cons, !bind_assoc.
    apply bind_ext. intros bit. rewrite bind_ret_l, bind_assoc.
    rewrite IH by (rewrite ?length_insert; lia). cbv zeta.
    rewrite drop_insert_lt by lia.
    apply bind_ext. intros bits. rewrite bind_ret_l.
    rewrite (take_S_r _ _ (measure_in basis qc))
      by (apply list_lookup_insert_eq; lia).
    rewrite take_insert_ge by lia. now rewrite <- !app_assoc.
Qed.

Lemma sift_loop_from alice_bits alice_bases bob_bases bob_results m :
  forall k sa sb,
  k + m <= length alice_bits -> k + m <= length alice_bases ->
  k + m <= length bob_bases -> k + m <= length bob_results ->
  for_in (seq k m) (sift_body alice_bits alice_bases bob_bases bob_results) (sa, sb)
  = Ret (sa ++ pick alice_bits
                 (List.filter (same_basis alice_bases bob_bases) (seq k m)),
         sb ++ pick bob_results
                 (List.filter (same_basis alice_bases bob_bases) (seq k m))).
Proof.
  induction m as [|m IH]; intros k sa sb H1 H2 H3 H4.
  - cbn. now rewrite !app_nil_r.
  - rewrite <- cons_seq, for_in_cons.
    rewrite sift_body_eq by lia. rewrite bind_ret_l.
    cbn [List.filter]. destruct (same_basis alice_bases bob_bases k).
    + rewrite IH by lia. cbn. now rewrite <- !app_assoc.
    + now rewrite IH by lia.
Qed.

End Loops.

Lemma prepare_loop_eq n_bits alice_bits alice_bases :
  length alice_bits = Z.to_nat n_bits -> length alice_bases = Z.to_nat n_bits ->
  prepare_loop n_bits alice_bits alice_bases
  = Ret (zip_with prepare alice_bits alice_bases).
Proof.
  intros Hbits Hbases. unfold prepare_loop, range.
  now rewrite prepare_loop_from by lia.
Qed.

Lemma eve_loop_eq n_bits eve_bases circuits :
  length eve_bases = Z.to_nat n_bits -> length circuits = Z.to_nat n_bits ->
  eve_loop n_bits eve_bases circuits = resend_all eve_bases.
Proof.
  intros Hbases Hcs. unfold eve_loop, range.
  rewrite eve_loop_from by lia. cbn. apply bind_ret_r.
Qed.

Lemma bob_loop_eq n_bits bob_bases circuits :
  length bob_bases = Z.to_nat n_bits -> length circuits = Z.to_nat n_bits ->
  bob_loop n_bits bob_bases circuits
  = (bits <- measure_all (zip_with measure_in bob_bases circuits) ;;
     Ret (zip_with measure_in bob_bases circuits, bits)).
Proof.
  intros Hbases Hcs. unfold bob_loop, range.
  now rewrite bob_loop_from by lia.
Qed.

Lemma sift_loop_eq n_bits alice_bits alice_bases bob_bases bob_results :
  length alice_bits = Z.to_nat n_bits -> length alice_bases = Z.to_nat n_bits ->
  length bob_bases = Z.to_nat n_bits -> length bob_results = Z.to_nat n_bits ->
  sift_loop n_bits alice_bits alice_bases bob_bases bob_results
  = Ret (pick alice_bits (kept n_bits alice_bases bob_bases),
         pick bob_results (kept n_bits alice_bases bob_bases)).
Proof.
  intros H1 H2 H3 H4. unfold sift_loop, kept, range.
  now rewrite sift_loop_from by lia.
Qed.

(* ===================================================================== *)
(** ** List comprehensions of probabilistic programs *)
(* ===================================================================== *)

Section OnReturn.
Local Open Scope Q_scope.
Context {A : Type}.

Lemma E_bind_on_return {C} (m : prog A) (k : A -> prog C) (G : C -> Q) :
  E (bind m k) (on_return G) = E m (on_return (fun a => E (k a) (on_return G))).
Proof. now rewrite E_bind. Qed.

Lemma E_on_return_const (m : prog A) (P : A -> Prop) (G : A -> Q) (c : Q) :
  always m P -> (forall a, P a -> G a == c) -> E m (on_return G) == c.
Proof.
  intros Hm HG. transitivity (E m (fun _ => c)).
  - eapply E_ext_always; [exact Hm |]. intros a Ha. cbn. auto.
  - now apply E_const.
Qed.

Lemma E_on_return_ext (m : prog A) (G G' : A -> Q) :
  (forall a, G a == G' a) -> E m (on_return G) == E m (on_return G').
Proof. intros HG. apply E_ext. intros [a|e]; cbn; [apply HG | reflexivity]. Qed.

End OnReturn.

Section Comprehension.
Local Open Scope Q_scope.
Context {A B : Type} (f : A -> prog B).

Lemma always_list_comp_each (P : A -> B -> Prop) (l : list A) :
  (forall a, always (f a) (P a)) -> always (list_comp l f) (Forall2 P l).
Proof.
  intros Hf. induction l as [|a l IH]; cbn.
  - constructor.
  - eapply always_bind; [apply Hf |]. intros b Hb.
    eapply always_bind; [apply IH |]. intros bs Hbs. cbn. now constructor.
Qed.

Lemma list_comp_returns (l : list A) :
  (forall a, always (f a) (fun _ => True)) ->
  always (list_comp l f) (fun _ => True).
Proof.
  intros Hf. eapply always_impl.
  - apply always_list_comp_each with (P := fun _ _ => True). exact Hf.
  - trivial.
Qed.

(** The value at one position of a comprehension is distributed as the
    program run for that position. *)
Lemma E_list_comp_at (G : B -> Q) :
  (forall a, always (f a) (fun _ => True)) ->
  forall (l : list A) (i : nat),
  E (list_comp l f) (on_return (fun bs => from_option G 0 (bs !! i)))
  == from_option (fun a => E (f a) (on_return G)) 0 (l !! i).
Proof.
  intros Hf. induction l as [|a l IH]; intros i.
  - cbn. reflexivity.
  - cbn [list_comp]. rewrite E_bind_on_return. destruct i as [|j]; cbn [lookup list_lookup from_option].
    + apply E_on_return_ext. intros b. cbv beta. rewrite E_bind_on_return.
      eapply E_on_return_const; [apply (list_comp_returns l Hf) |].
      intros bs _. cbn. reflexivity.
    + eapply E_on_return_const; [apply Hf |]. intros b _. cbv beta.
      rewrite E_bind_on_return. rewrite <- (IH j).
      apply E_on_return_ext. intros bs. cbn. reflexivity.
Qed.

Lemma always_list_comp_each_in (P : A -> B -> Prop) (l : list A) :
  Forall (fun a => always (f a) (P a)) l ->
  always (list_comp l f) (Forall2 P l).
Proof.
  induction 1 as [|a l Ha Hl IH]; cbn.
  - constructor.
  - eapply always_bind; [exact Ha |]. intros b Hb.
    eapply always_bind; [apply IH |]. intros bs Hbs. cbn. now constructor.
Qed.

Lemma list_comp_returns_in (l : list A) :
  Forall (fun a => always (f a) (fun _ => True)) l ->
  always (list_comp l f) (fun _ => True).
Proof.
  intros Hf. eapply always_impl.
  - apply always_list_comp_each_in with (P := fun _ _ => True). exact Hf.
  - trivial.
Qed.

(** The same, for a comprehension whose programs return on the elements
    of the list at hand. *)
Lemma E_list_comp_at_in (G : B -> Q) (l : list A) :
  Forall (fun a => always (f a) (fun _ => True)) l ->
  forall i : nat,
  E (list_comp l f) (on_return (fun bs => from_option G 0 (bs !! i)))
  == from_option (fun a => E (f a) (on_return G)) 0 (l !! i).
Proof.
  induction 1 as [|a l Ha Hl IH]; intros i.
  - cbn. reflexivity.
  - cbn [list_comp]. rewrite E_bind_on_return.
    destruct i as [|j]; cbn [lookup list_lookup from_option].
    + apply E_on_return_ext. intros b. cbv beta. rewrite E_bind_on_return.
      eapply E_on_return_const; [apply (list_comp_returns_in l Hl) |].
      intros bs _. cbn. reflexivity.
    + eapply E_on_return_const; [exact Ha |]. intros b _. cbv beta.
      rewrite E_bind_on_return. rewrite <- (IH j).
      apply E_on_return_ext. intros bs. cbn. reflexivity.
Qed.

End Comprehension.

(* ===================================================================== *)
(** ** Linearity of expectation *)
(* ===================================================================== *)

Section Linearity.
Local Open Scope Q_scope.
Context {A : Type}.

Lemma E_plus (m : prog A) (f g : A -> Q) :
  E m (on_return (fun a => f a + g a))
  == E m (on_return f) + E m (on_return g).
Proof.
  induction m as [a|e|p l IHl r IHr]; cbn.
  - reflexivity.
  - ring.
  - rewrite IHl, IHr. ring.
Qed.

Lemma E_scale (m : prog A) (c : Q) (f : A -> Q) :
  E m (on_return (fun a => c * f a)) == c * E m (on_return f).
Proof.
  induction m as [a|e|p l IHl r IHr]; cbn.
  - reflexivity.
  - ring.
  - rewrite IHl, IHr. ring.
Qed.

Lemma E_zero (m : prog A) : E m (on_return (fun _ => 0)) == 0.
Proof. apply E_const. intros [a|e]; reflexivity. Qed.

Lemma E_Qsum {I} (m : prog A) (l : list I) (g : I -> A -> Q) :
  E m (on_return (fun a => Qsum l (fun i => g i a)))
  == Qsum l (fun i => E m (on_return (g i))).
Proof.
  induction l as [|i l IH]; cbn [Qsum fold_right].
  - apply E_zero.
  - rewrite E_plus. unfold Qsum in IH. now rewrite IH.
Qed.

End Linearity.

(** Two programs run one after the other can be averaged in either
    order. *)
Lemma E_swap {A B} (m : prog A) (m' : prog B) (h : A -> B -> Q) :
  (E m (on_return (fun a => E m' (on_return (fun b => h a b))))
  == E m' (on_return (fun b => E m (on_return (fun a => h a b)))))%Q.
Proof.
  induction m as [a|e|p l IHl r IHr]; cbn [E on_return].
  - reflexivity.
  - symmetry. apply E_zero.
  - rewrite IHl, IHr.
    rewrite <- !E_scale, <- E_plus. reflexivity.
Qed.

Section Sums.
Local Open Scope Q_scope.
Context {I : Type}.

Lemma Qsum_ext_in (l : list I) (f g : I -> Q) :
  (forall i, In i l -> f i == g i) -> Qsum l f == Qsum l g.
Proof.
  induction l as [|i l IH]; intros Hfg; cbn; [reflexivity |].
  rewrite (Hfg i) by now left.
  unfold Qsum in IH. rewrite IH; [reflexivity |].
  intros j Hj. apply Hfg. now right.
Qed.

Lemma Qsum_const (l : list I) (v : Q) :
  Qsum l (fun _ => v) == inject_Z (Z.of_nat (length l)) * v.
Proof.
  induction l as [|i l IH]; cbn [Qsum fold_right length].
  - ring.
  - unfold Qsum in IH. rewrite IH, Nat2Z.inj_succ. unfold Z.succ.
    rewrite inject_Z_plus. ring.
Qed.

End Sums.

(* ===================================================================== *)
(** ** Facts about one-shot execution *)
(* ===================================================================== *)

Lemma always_sample {A} (p : Q) (on0 on1 : prog A) (P : A -> Prop) :
  always on0 P -> always on1 P -> always (sample p on0 on1) P.
Proof.
  intros H0 H1. unfold sample.
  destruct (Qeq_bool p 1); [assumption |].
  destruct (Qeq_bool p 0); [assumption |]. now split.
Qed.

Lemma exec_is_bit (qc : circuit) : forall s c,
  is_bit c -> always (exec qc s c) is_bit.
Proof.
  induction qc as [|g qc IH]; intros s c Hc; cbn.
  - exact Hc.
  - destruct g; auto.
    apply always_sample; apply IH; [now left | now right].
Qed.

(** The circuit holds a measurement. *)
Lemma measured_measure_in (basis : Z) (qc : circuit) :
  existsb is_measure (measure_in basis qc) = true.
Proof.
  unfold measure_in, measure. rewrite existsb_app. cbn.
  apply orb_true_r.
Qed.

Lemma run_one_shot_is_bit (qc : circuit) :
  existsb is_measure qc = true -> always (run_one_shot qc) is_bit.
Proof.
  intros Hm. unfold run_one_shot. rewrite Hm. apply exec_is_bit. now left.
Qed.

Lemma run_one_shot_returns (qc : circuit) :
  existsb is_measure qc = true -> always (run_one_shot qc) (fun _ => True).
Proof.
  intros Hm. eapply always_impl; [now apply run_one_shot_is_bit | trivial].
Qed.

Lemma run_measure_in_returns (basis : Z) (qc : circuit) :
  always (run_one_shot (measure_in basis qc)) (fun _ => True).
Proof. apply run_one_shot_returns, measured_measure_in. Qed.

Lemma Forall_zip_with_measure_in (P : circuit -> Prop)
    (bases : list Z) (circuits : list circuit) :
  (forall basis qc, P (measure_in basis qc)) ->
  Forall P (zip_with measure_in bases circuits).
Proof.
  intros HP. revert circuits.
  induction bases as [|b bases IH]; intros [|qc circuits]; cbn;
    constructor; auto.
Qed.

(** Measuring in the basis of preparation reads the prepared bit. *)
Lemma measure_matched (bit basis : Z) :
  is_bit bit -> measure_state (prepare bit basis) basis = Ret bit.
Proof.
  intros [-> | ->]; unfold measure_state, measure_in, prepare;
    destruct (basis =? 1)%Z; reflexivity.
Qed.

Lemma measure_same_gate (bit basis basis' : Z) :
  is_bit bit -> (basis =? 1)%Z = (basis' =? 1)%Z ->
  measure_state (prepare bit basis) basis' = Ret bit.
Proof.
  intros [-> | ->] Heq; unfold measure_state, measure_in, prepare;
    rewrite <- Heq; destruct (basis =? 1)%Z; reflexivity.
Qed.

Lemma is_bit_flip (b : Z) : is_bit b -> (b =? 1)%Z <> (1 - b =? 1)%Z.
Proof. intros [-> | ->]; discriminate. Qed.

(** Measuring in the other basis reads a fair coin. *)
Lemma measure_mismatched (bit basis basis' : Z) :
  (basis =? 1)%Z <> (basis' =? 1)%Z ->
  measure_state (prepare bit basis) basis'
  = Choice (1 # 2) (Ret 0%Z) (Ret 1%Z).
Proof.
  intros Hne. unfold measure_state, measure_in, prepare.
  destruct (bit =? 1)%Z, (basis =? 1)%Z, (basis' =? 1)%Z;
    try congruence; reflexivity.
Qed.

(* ===================================================================== *)
(** ** The simulation as a trial over the channel *)
(* ===================================================================== *)

Lemma always_list_comp_length {A B} (f : A -> prog B) (l : list A) :
  (forall a, always (f a) (fun _ => True)) ->
  always (list_comp l f) (fun bs => length bs = length l).
Proof.
  intros Hf. eapply always_impl.
  - apply always_list_comp_each with (P := fun _ _ => True). exact Hf.
  - intros bs Hbs. symmetry. eapply Forall2_length, Hbs.
Qed.

Lemma length_zip_with_same {A B C} (f : A -> B -> C) (l : list A) (k : list B) :
  length l = length k -> length (zip_with f l k) = length l.
Proof. intros Hlk. rewrite length_zip_with, Hlk. apply Nat.min_id. Qed.

Lemma resend_returns (basis : Z) : always (resend basis) (fun _ => True).
Proof. unfold resend. rewrite randint_0_1. cbn. auto. Qed.

Lemma always_resend_all_length (eve_bases : list Z) :
  always (resend_all eve_bases) (fun cs => length cs = length eve_bases).
Proof. apply always_list_comp_length, resend_returns. Qed.

Lemma always_measure_all_length (bases : list Z) (states : list circuit) :
  always (measure_all (zip_with measure_in bases states))
         (fun bits => length bits = length (zip_with measure_in bases states)).
Proof.
  eapply always_impl.
  - apply always_list_comp_each_in with (P := fun _ _ => True).
    apply Forall_zip_with_measure_in. intros basis qc.
    apply run_measure_in_returns.
  - intros bits Hbits. symmetry. eapply Forall2_length, Hbits.
Qed.

Lemma qber_of_eq (sifted_alice sifted_bob : list Z) :
  qber_of sifted_alice sifted_bob = Ret (qber_float sifted_alice sifted_bob).
Proof.
  unfold qber_of, qber_float, error_rate, truediv.
  now destruct (length sifted_alice).
Qed.

Lemma receive_and_sift_eq n_bits alice_bits alice_bases states :
  length alice_bits = Z.to_nat n_bits -> length alice_bases = Z.to_nat n_bits ->
  length states = Z.to_nat n_bits ->
  (bob_bases <- random_bits n_bits ;;
   '(circuits, bob_results) <- bob_loop n_bits bob_bases states ;;
   '(sifted_key_alice, sifted_key_bob) <-
     sift_loop n_bits alice_bits alice_bases bob_bases bob_results ;;
   qber <- qber_of sifted_key_alice sifted_key_bob ;;
   Ret (sifted_key_alice, sifted_key_bob, qber))
  = (bob_bases <- random_bits n_bits ;;
     bob_results <- measure_all (zip_with measure_in bob_bases states) ;;
     let positions := kept n_bits alice_bases bob_bases in
     let sifted_alice := pick alice_bits positions in
     let sifted_bob := pick bob_results positions in
     Ret (sifted_alice, sifted_bob, qber_float sifted_alice sifted_bob)).
Proof.
  intros Hbits Hbases Hstates.
  eapply bind_ext_always; [apply always_random_bits |].
  intros bob_bases [Hbob _]. cbv beta.
  rewrite bob_loop_eq, bind_assoc by assumption.
  eapply bind_ext_always; [apply always_measure_all_length |].
  intros bob_results Hres. cbv beta.
  rewrite length_zip_with_same in Hres by congruence.
  rewrite bind_ret_l, sift_loop_eq, bind_ret_l by congruence.
  now rewrite qber_of_eq, bind_ret_l.
Qed.

(** [simulate_bb84] is, as a tree of random choices, the trial over the
    channel. *)
Lemma simulate_bb84_eq (n_bits : Z) (eavesdrop : bool) :
  simulate_bb84 n_bits eavesdrop = trial n_bits eavesdrop.
Proof.
  unfold simulate_bb84, trial.
  eapply bind_ext_always; [apply always_random_bits |].
  intros alice_bits [Hbits _]. cbv beta.
  eapply bind_ext_always; [apply always_random_bits |].
  intros alice_bases [Hbases _]. cbv beta.
  rewrite prepare_loop_eq, bind_ret_l by assumption.
  destruct eavesdrop.
  - rewrite !bind_assoc.
    eapply bind_ext_always; [apply always_random_bits |].
    intros eve_bases [Heve _]. cbv beta.
    rewrite eve_loop_eq by (rewrite ?length_zip_with_same; congruence).
    eapply bind_ext_always; [apply always_resend_all_length |].
    intros states Hstates. cbv beta.
    apply receive_and_sift_eq; congruence.
  - rewrite !bind_ret_l.
    apply receive_and_sift_eq; rewrite ?length_zip_with_same; congruence.
Qed.

(* ===================================================================== *)
(** ** Every run of the simulation *)
(* ===================================================================== *)

Lemma always_possible_self {A} (m : prog A) :
  always m (fun _ => True) -> always m (fun a => possible m (Returned a)).
Proof.
  induction m as [a|e|p l IHl r IHr]; cbn.
  - intros _. constructor.
  - trivial.
  - intros [Hl Hr]. split.
    + eapply always_impl; [apply IHl, Hl |]. intros a Ha. now apply possible_left.
    + eapply always_impl; [apply IHr, Hr |]. intros a Ha. now apply possible_right.
Qed.

Lemma possible_Ret_inv {A} (a b : A) : possible (Ret a) (Returned b) -> b = a.
Proof. intros Hp. inversion Hp. reflexivity. Qed.

(** Without Eve, Bob reads Alice's bit wherever the bases agree. *)
Lemma always_measure_all_unintercepted n_bits alice_bits alice_bases bob_bases :
  length alice_bits = Z.to_nat n_bits -> length alice_bases = Z.to_nat n_bits ->
  length bob_bases = Z.to_nat n_bits -> Forall is_bit alice_bits ->
  always (measure_all (zip_with measure_in bob_bases
                                (zip_with prepare alice_bits alice_bases)))
         (fun bob_results =>
            forall i, i < Z.to_nat n_bits ->
                      same_basis alice_bases bob_bases i = true ->
                      nth i bob_results 0%Z = nth i alice_bits 0%Z).
Proof.
  intros Hbits Hbases Hbob Hbit.
  eapply always_impl.
  - apply always_and.
    + apply always_measure_all_length.
    + apply always_list_comp_each_in
        with (P := fun qc bit => possible (run_one_shot qc) (Returned bit)).
      apply Forall_zip_with_measure_in. intros basis qc.
      apply always_possible_self, run_measure_in_returns.
  - cbv beta. intros bob_results [Hlen Hall] i Hi Hsame.
    rewrite !length_zip_with_same in Hlen
      by (rewrite ?length_zip_with_same; congruence).
    destruct (lookup_in_range alice_bits (i := i)) as [bit Hb]; [lia |].
    destruct (lookup_in_range alice_bases (i := i)) as [basis Hba]; [lia |].
    destruct (lookup_in_range bob_bases (i := i)) as [basis' Hbo]; [lia |].
    destruct (lookup_in_range bob_results (i := i)) as [res Hres]; [lia |].
    unfold same_basis in Hsame. rewrite !nth_lookup, Hba, Hbo in Hsame.
    cbn in Hsame. apply Z.eqb_eq in Hsame. subst basis'.
    rewrite !nth_lookup, Hb, Hres. cbn.
    assert (Hqc : zip_with measure_in bob_bases
                    (zip_with prepare alice_bits alice_bases) !! i
                  = Some (measure_in basis (prepare bit basis))).
    { rewrite !lookup_zip_with, Hbo, Hb, Hba. reflexivity. }
    pose proof (Forall2_lookup_lr _ _ _ _ _ _ Hall Hqc Hres) as Hp.
    assert (Hbit' : is_bit bit) by (eapply Forall_lookup_1; eauto).
    pose proof (measure_matched bit basis Hbit') as Hm.
    unfold measure_state in Hm. cbv beta in Hp. rewrite Hm in Hp.
    now apply possible_Ret_inv.
Qed.

Lemma always_trial (n_bits : Z) (eavesdrop : bool) :
  always (trial n_bits eavesdrop) (arises_from n_bits eavesdrop).
Proof.
  unfold trial.
  eapply always_bind; [apply always_random_bits |].
  intros alice_bits [Hbits Hbit].
  eapply always_bind; [apply always_random_bits |].
  intros alice_bases [Hbases _].
  eapply always_bind
    with (P := fun states =>
                 length states = Z.to_nat n_bits /\
                 (eavesdrop = false ->
                  states = zip_with prepare alice_bits alice_bases)).
  { destruct eavesdrop.
    - eapply always_bind; [apply always_random_bits |].
      intros eve_bases [Heve _].
      eapply always_impl; [apply always_resend_all_length |].
      intros states Hstates. split; [congruence | discriminate].
    - cbn. split; [| reflexivity]. rewrite length_zip_with_same; congruence. }
  intros states [Hstates Hclean].
  eapply always_bind; [apply always_random_bits |].
  intros bob_bases [Hbob _].
  eapply always_bind
    with (P := fun bob_results =>
                 length bob_results = Z.to_nat n_bits /\
                 (eavesdrop = false ->
                  forall i, i < Z.to_nat n_bits ->
                            same_basis alice_bases bob_bases i = true ->
                            nth i bob_results 0%Z = nth i alice_bits 0%Z)).
  { destruct eavesdrop.
    - eapply always_impl; [apply always_measure_all_length |].
      intros bob_results Hres. split; [| discriminate].
      rewrite Hres, length_zip_with_same; congruence.
    - rewrite (Hclean eq_refl). apply always_and.
      + eapply always_impl; [apply always_measure_all_length |].
        intros bob_results Hres. cbv beta.
        rewrite Hres, !length_zip_with_same;
          rewrite ?length_zip_with_same; congruence.
      + eapply always_impl;
          [now apply (always_measure_all_unintercepted n_bits) |].
        auto. }
  intros bob_results [Hres Hagree]. cbn.
  exists alice_bits, alice_bases, bob_bases, bob_results.
  repeat split; auto.
Qed.

Lemma always_simulate_bb84 (n_bits : Z) (eavesdrop : bool) :
  always (simulate_bb84 n_bits eavesdrop) (arises_from n_bits eavesdrop).
Proof. rewrite simulate_bb84_eq. apply always_trial. Qed.

(* ===================================================================== *)
(** ** Sifting and the error rate *)
(* ===================================================================== *)

Lemma length_pick (l : list Z) (positions : list nat) :
  length (pick l positions) = length positions.
Proof. unfold pick. now rewrite length_map. Qed.

Lemma length_filter_sum (keep : nat -> bool) (l : list nat) :
  length (List.filter keep l)
  = sum_list (map (fun i => if keep i then 1 else 0) l).
Proof.
  induction l as [|i l IH]; cbn; [reflexivity |].
  destruct (keep i); cbn; now rewrite IH.
Qed.

Lemma length_kept n_bits alice_bases bob_bases :
  length (kept n_bits alice_bases bob_bases)
  = count_matching n_bits alice_bases bob_bases.
Proof. apply length_filter_sum. Qed.

Lemma In_kept n_bits alice_bases bob_bases i :
  In i (kept n_bits alice_bases bob_bases)
  <-> i < Z.to_nat n_bits /\ same_basis alice_bases bob_bases i = true.
Proof.
  unfold kept, range. rewrite filter_In, in_seq. intuition lia.
Qed.

Lemma filter_seq_increasing (keep : nat -> bool) (m : nat) : forall k,
  StronglySorted lt (List.filter keep (seq k m)).
Proof.
  induction m as [|m IH]; intros k; cbn; [constructor |].
  destruct (keep k); [| apply IH].
  constructor; [apply IH |].
  apply List.Forall_forall. intros j Hj.
  apply filter_In in Hj as [Hj _]. apply in_seq in Hj. lia.
Qed.

Lemma kept_increasing n_bits alice_bases bob_bases :
  StronglySorted lt (kept n_bits alice_bases bob_bases).
Proof. apply filter_seq_increasing. Qed.

Lemma Zpos_of_nat_S (k : nat) : Z.pos (Pos.of_nat (S k)) = Z.of_nat (S k).
Proof. rewrite <- Pos.of_nat_succ, Zpos_P_of_succ_nat. lia. Qed.

Lemma error_rate_bounds (sifted_alice sifted_bob : list Z) :
  (0 <= error_rate sifted_alice sifted_bob <= 1)%Q.
Proof.
  unfold error_rate.
  pose proof (count_differ_le sifted_alice sifted_bob) as Hle.
  destruct (length sifted_alice) as [|k]; [split; discriminate |].
  unfold Qle. cbn [Qnum Qden]. rewrite Zpos_of_nat_S. lia.
Qed.

Lemma error_rate_empty (sifted_alice sifted_bob : list Z) :
  length sifted_alice = 0 -> error_rate sifted_alice sifted_bob = 0%Q.
Proof. intros Hlen. unfold error_rate. now rewrite Hlen. Qed.

Lemma error_rate_quotient (sifted_alice sifted_bob : list Z) :
  length sifted_alice <> 0 ->
  (error_rate sifted_alice sifted_bob
   == inject_Z (Z.of_nat (count_differ sifted_alice sifted_bob))
      / inject_Z (Z.of_nat (length sifted_alice)))%Q.
Proof.
  intros Hlen. unfold error_rate.
  destruct (length sifted_alice) as [|k]; [contradiction |].
  rewrite Qmake_Qdiv. now rewrite Zpos_of_nat_S.
Qed.

Lemma error_rate_same (sifted : list Z) : (error_rate sifted sifted == 0)%Q.
Proof.
  unfold error_rate. rewrite count_differ_same.
  destruct (length sifted); reflexivity.
Qed.

(* ===================================================================== *)
(** ** Every branch of the simulation has positive probability *)
(* ===================================================================== *)

Lemma proper_bind {A B} (m : prog A) (f : A -> prog B) :
  proper m -> (forall a, proper (f a)) -> proper (bind m f).
Proof.
  intros Hm Hf. induction m as [a|e|p l IHl r IHr]; cbn in *; auto.
  destruct Hm as (Hp & Hl & Hr). auto.
Qed.

Lemma proper_list_comp {A B} (f : A -> prog B) (l : list A) :
  (forall a, proper (f a)) -> proper (list_comp l f).
Proof.
  intros Hf. induction l as [|a l IH]; cbn; [exact I |].
  apply proper_bind; [apply Hf |]. intros b.
  apply proper_bind; [apply IH |]. intros bs. exact I.
Qed.

Lemma proper_randint_0_1 : proper (randint 0 1).
Proof. rewrite randint_0_1. cbn. repeat split. Qed.

Lemma proper_random_bits (n_bits : Z) : proper (random_bits n_bits).
Proof. apply proper_list_comp. intros _. apply proper_randint_0_1. Qed.

Lemma prob0_Qmake (s : qubit) :
  (prob0 s == (amp0 s * amp0 s) # Z.to_pos (2 ^ Z.of_nat (rt2 s)))%Q.
Proof.
  unfold prob0. rewrite Qmake_Qdiv, Z2Pos.id; [reflexivity |].
  apply Z.pow_pos_nonneg; lia.
Qed.

Lemma normalized_collapse (b : bool) (s : qubit) :
  (if b then amp1 s else amp0 s) <> 0%Z -> normalized (collapse b s).
Proof.
  unfold normalized, collapse. destruct b; cbn; intros Hne; nia.
Qed.

Lemma proper_exec (qc : circuit) : forall s c,
  normalized s -> proper (exec qc s c).
Proof.
  induction qc as [|g qc IH]; intros s c Hs; cbn; [exact I |].
  destruct g.
  - apply IH. unfold normalized, apply_x in *. cbn. lia.
  - apply IH. unfold normalized, apply_h in *. cbn [amp0 amp1 rt2].
    rewrite Nat2Z.inj_succ, Z.pow_succ_r by lia. lia.
  - assert (Hpow : (0 < 2 ^ Z.of_nat (rt2 s))%Z)
      by (apply Z.pow_pos_nonneg; lia).
    unfold normalized in Hs. unfold sample.
    destruct (Qeq_bool (prob0 s) 1) eqn:H1.
    { apply IH, (normalized_collapse false). apply Qeq_bool_iff in H1.
      rewrite prob0_Qmake in H1. unfold Qeq in H1. cbn in H1.
      rewrite Z2Pos.id in H1 by assumption. nia. }
    destruct (Qeq_bool (prob0 s) 0) eqn:H0.
    { apply IH, (normalized_collapse true). apply Qeq_bool_iff in H0.
      rewrite prob0_Qmake in H0. unfold Qeq in H0. cbn in H0. nia. }
    apply Qeq_bool_neq in H1, H0. rewrite prob0_Qmake in H1, H0.
    unfold Qeq in H1, H0. cbn in H1, H0.
    rewrite Z2Pos.id in H1 by assumption.
    cbn [proper]. rewrite prob0_Qmake. unfold Qlt. cbn [Qnum Qden].
    rewrite Z2Pos.id by assumption.
    repeat split.
    + nia.
    + nia.
    + apply IH, (normalized_collapse false). nia.
    + apply IH, (normalized_collapse true). nia.
Qed.

Lemma proper_run_one_shot (qc : circuit) : proper (run_one_shot qc).
Proof.
  unfold run_one_shot. destruct (existsb is_measure qc); [| exact I].
  apply proper_exec. reflexivity.
Qed.

(** In the simulation every random choice has a weight strictly between 0
    and 1: each run considered by [always] has positive probability. *)
Lemma proper_simulate_bb84 (n_bits : Z) (eavesdrop : bool) :
  proper (simulate_bb84 n_bits eavesdrop).
Proof.
  rewrite simulate_bb84_eq. unfold trial.
  apply proper_bind; [apply proper_random_bits |]. intros alice_bits.
  apply proper_bind; [apply proper_random_bits |]. intros alice_bases.
  apply proper_bind.
  - destruct eavesdrop; [| exact I].
    apply proper_bind; [apply proper_random_bits |]. intros eve_bases.
    apply proper_list_comp. intros basis. unfold resend.
    apply proper_bind; [apply proper_randint_0_1 |]. intros bit. exact I.
  - intros states.
    apply proper_bind; [apply proper_random_bits |]. intros bob_bases.
    apply proper_bind; [| intros bob_results; exact I].
    apply proper_list_comp, proper_run_one_shot.
Qed.

(* ===================================================================== *)
(** ** The expected error rate under eavesdropping *)
(* ===================================================================== *)

Section ExpectedErrorRate.
Local Open Scope Q_scope.

(** A state resent by Eve and measured by Bob differs from any given bit
    with probability 1/2, whatever the two bases. *)
Lemma E_resend_measure_differ (bit basis eve_basis : Z) :
  is_bit bit ->
  E (resend eve_basis)
    (on_return (fun qc => E (run_one_shot (measure_in basis qc))
                            (on_return (differ bit))))
  == 1 # 2.
Proof.
  intros Hbit. unfold resend. rewrite randint_0_1. cbn [bind E on_return].
  fold (measure_state (prepare 0 eve_basis) basis).
  fold (measure_state (prepare 1 eve_basis) basis).
  destruct (Bool.bool_dec (eve_basis =? 1)%Z (basis =? 1)%Z) as [Hsame | Hdiff].
  - rewrite !measure_same_gate by (unfold is_bit; auto).
    destruct Hbit as [-> | ->]; reflexivity.
  - rewrite !measure_mismatched by assumption.
    destruct Hbit as [-> | ->]; reflexivity.
Qed.

Lemma count_differ_pick (a r : list Z) (positions : list nat) :
  inject_Z (Z.of_nat (count_differ (pick a positions) (pick r positions)))
  == Qsum positions (fun i => differ (nth i a 0%Z) (nth i r 0%Z)).
Proof.
  unfold count_differ, pick, Qsum.
  induction positions as [|i positions IH]; cbn; [reflexivity |].
  rewrite <- IH. unfold differ.
  destruct (nth i a 0 =? nth i r 0)%Z.
  - cbn. ring.
  - rewrite Nat2Z.inj_succ. unfold Z.succ. rewrite inject_Z_plus. ring.
Qed.

Lemma error_rate_as_sum (a r : list Z) (positions : list nat) :
  error_rate (pick a positions) (pick r positions)
  == (1 # Pos.of_nat (length positions))
     * Qsum positions (fun i => differ (nth i a 0%Z) (nth i r 0%Z)).
Proof.
  rewrite <- count_differ_pick. unfold error_rate. rewrite length_pick.
  destruct positions as [|i positions]; [reflexivity |].
  cbn [length]. unfold Qeq. cbn. lia.
Qed.

Lemma In_kept_lt n_bits alice_bases bob_bases i :
  In i (kept n_bits alice_bases bob_bases) -> (i < Z.to_nat n_bits)%nat.
Proof. intros Hi. now apply In_kept in Hi. Qed.

(** Given everything but Bob's reads, the expected error rate is the mean
    over the kept positions of the probability that the read differs. *)
Lemma E_error_rate_measure n_bits alice_bits alice_bases bob_bases states :
  length bob_bases = Z.to_nat n_bits -> length states = Z.to_nat n_bits ->
  let positions := kept n_bits alice_bases bob_bases in
  E (measure_all (zip_with measure_in bob_bases states))
    (on_return (fun bob_results =>
       error_rate (pick alice_bits positions) (pick bob_results positions)))
  == (1 # Pos.of_nat (length positions))
     * Qsum positions
         (fun i => from_option
            (fun qc => E (run_one_shot qc)
                         (on_return (differ (nth i alice_bits 0%Z))))
            0 (zip_with measure_in bob_bases states !! i)).
Proof.
  intros Hbob Hstates positions.
  transitivity
    (E (measure_all (zip_with measure_in bob_bases states))
       (on_return (fun bob_results =>
          (1 # Pos.of_nat (length positions))
          * Qsum positions
              (fun i => differ (nth i alice_bits 0%Z) (nth i bob_results 0%Z))))).
  { apply E_on_return_ext. intros bob_results. apply error_rate_as_sum. }
  rewrite E_scale, E_Qsum.
  apply Qmult_comp; [reflexivity |].
  apply Qsum_ext_in. intros i Hi. apply In_kept_lt in Hi.
  transitivity
    (E (measure_all (zip_with measure_in bob_bases states))
       (on_return (fun bob_results =>
          from_option (differ (nth i alice_bits 0%Z)) 0 (bob_results !! i)))).
  - eapply E_ext_always; [apply always_measure_all_length |].
    intros bob_results Hres. cbn [on_return].
    rewrite length_zip_with_same in Hres by congruence.
    destruct (lookup_in_range bob_results (i := i)) as [res Hi']; [lia |].
    rewrite (nth_lookup bob_results), Hi'. reflexivity.
  - unfold measure_all. apply E_list_comp_at_in.
    apply Forall_zip_with_measure_in. intros basis qc.
    apply run_measure_in_returns.
Qed.

(** Averaged over Eve's fresh bits as well, every kept position
    contributes 1/2. *)
Lemma E_error_rate_resend n_bits alice_bits alice_bases eve_bases bob_bases :
  length alice_bits = Z.to_nat n_bits -> Forall is_bit alice_bits ->
  length eve_bases = Z.to_nat n_bits -> length bob_bases = Z.to_nat n_bits ->
  let positions := kept n_bits alice_bases bob_bases in
  E (resend_all eve_bases)
    (on_return (fun states =>
       (1 # Pos.of_nat (length positions))
       * Qsum positions
           (fun i => from_option
              (fun qc => E (run_one_shot qc)
                           (on_return (differ (nth i alice_bits 0%Z))))
              0 (zip_with measure_in bob_bases states !! i))))
  == if (length positions =? 0)%nat then 0 else 1 # 2.
Proof.
  intros Hbits Hbit Heve Hbob positions.
  rewrite E_scale, E_Qsum.
  transitivity ((1 # Pos.of_nat (length positions))
                * Qsum positions (fun _ => 1 # 2)).
  - apply Qmult_comp; [reflexivity |].
    apply Qsum_ext_in. intros i Hi. apply In_kept_lt in Hi.
    destruct (lookup_in_range alice_bits (i := i)) as [bit Hi1]; [lia |].
    destruct (lookup_in_range eve_bases (i := i)) as [eve_basis Hi2]; [lia |].
    destruct (lookup_in_range bob_bases (i := i)) as [basis Hi3]; [lia |].
    rewrite (nth_lookup alice_bits), Hi1. cbn [default from_option].
    transitivity
      (E (resend_all eve_bases)
         (on_return (fun states =>
            from_option
              (fun qc => E (run_one_shot (measure_in basis qc))
                           (on_return (differ bit)))
              0 (states !! i)))).
    + apply E_on_return_ext. intros states.
      rewrite lookup_zip_with, Hi3. cbn.
      destruct (states !! i); reflexivity.
    + unfold resend_all. rewrite E_list_comp_at by apply resend_returns.
      rewrite Hi2. cbn [from_option].
      apply E_resend_measure_differ. eapply Forall_lookup_1; eauto.
  - rewrite Qsum_const.
    destruct (length positions) as [|k]; [reflexivity |].
    cbn [Nat.eqb]. unfold Qeq. cbn [Qnum Qden Qmult inject_Z].
    rewrite Pos2Z.inj_mul, Zpos_of_nat_S. lia.
Qed.

Lemma length_filter_same_basis_cons a0 b0 (a b : list Z) (m : nat) : forall k,
  length (List.filter (same_basis (a0 :: a) (b0 :: b)) (seq (S k) m))
  = length (List.filter (same_basis a b) (seq k m)).
Proof.
  induction m as [|m IH]; intros k; [reflexivity |].
  cbn [seq List.filter].
  change (same_basis (a0 :: a) (b0 :: b) (S k)) with (same_basis a b k).
  destruct (same_basis a b k); cbn [length]; now rewrite IH.
Qed.

(** Averaged over Bob's bases: no position is kept with probability
    [(1/2)^n]. *)
Lemma E_kept_nonempty (alice_bases : list Z) :
  Forall is_bit alice_bases ->
  forall indices : list nat,
  length indices = length alice_bases ->
  E (list_comp indices (fun _ => randint 0 1))
    (on_return (fun bob_bases =>
       if (length (List.filter (same_basis alice_bases bob_bases)
                               (seq 0 (length alice_bases))) =? 0)%nat
       then 0 else 1 # 2))
  == (1 - half_pow (length alice_bases)) * (1 # 2).
Proof.
  induction 1 as [|a0 a Ha0 Ha IH]; intros indices Hlen.
  - destruct indices; [| discriminate]. cbn. reflexivity.
  - destruct indices as [|j indices]; [discriminate |].
    injection Hlen as Hlen. specialize (IH indices Hlen).
    cbn [list_comp]. rewrite E_bind_on_return, E_randint_0_1.
    cbn [on_return length seq half_pow].
    rewrite !E_bind_on_return. cbn [E on_return].
    assert (Hstep : forall b0 : Z,
      E (list_comp indices (fun _ => randint 0 1))
        (on_return (fun bs =>
           if (length (List.filter (same_basis (a0 :: a) (b0 :: bs))
                                   (0 :: seq 1 (length a))) =? 0)%nat
           then 0 else 1 # 2))
      == if (a0 =? b0)%Z then 1 # 2 else (1 - half_pow (length a)) * (1 # 2)).
    { intros b0. cbn [List.filter].
      change (same_basis (a0 :: a) (b0 :: ?bs) 0) with (a0 =? b0)%Z.
      destruct (a0 =? b0)%Z.
      - eapply E_on_return_const.
        + apply list_comp_returns. intros _.
          eapply always_impl; [apply always_randint_0_1 | trivial].
        + intros bs _. reflexivity.
      - rewrite <- IH. apply E_on_return_ext. intros bs.
        now rewrite length_filter_same_basis_cons. }
    rewrite !Hstep.
    destruct Ha0 as [-> | ->]; cbn; ring.
Qed.

(** With eavesdropping the expected error rate of the sifted keys of a run
    over [n] qubits is [(1 - (1/2)^n) / 2]. *)
Lemma expected_error_rate_eavesdrop (n_bits : Z) :
  E (simulate_bb84 n_bits true)
    (on_return (fun t => error_rate (key_alice t) (key_bob t)))
  == (1 - half_pow (Z.to_nat n_bits)) * (1 # 2).
Proof.
  rewrite simulate_bb84_eq. unfold trial.
  rewrite E_bind_on_return.
  eapply E_on_return_const; [apply always_random_bits |].
  intros alice_bits [Hbits Hbit]. cbv beta.
  rewrite E_bind_on_return.
  eapply E_on_return_const; [apply always_random_bits |].
  intros alice_bases [Hbases Hbase]. cbv beta.
  rewrite bind_assoc, E_bind_on_return.
  eapply E_on_return_const; [apply always_random_bits |].
  intros eve_bases [Heve _]. cbv beta.
  rewrite E_bind_on_return.
  transitivity
    (E (resend_all eve_bases)
       (on_return (fun states =>
          E (random_bits n_bits)
            (on_return (fun bob_bases =>
               let positions := kept n_bits alice_bases bob_bases in
               (1 # Pos.of_nat (length positions))
               * Qsum positions
                   (fun i => from_option
                      (fun qc => E (run_one_shot qc)
                                   (on_return (differ (nth i alice_bits 0%Z))))
                      0 (zip_with measure_in bob_bases states !! i))))))).
  { eapply E_ext_always; [apply always_resend_all_length |].
    intros states Hstates. cbn [on_return].
    rewrite E_bind_on_return.
    eapply E_ext_always; [apply always_random_bits |].
    intros bob_bases [Hbob _]. cbn [on_return].
    rewrite E_bind_on_return. cbn [E on_return key_alice key_bob fst snd].
    apply E_error_rate_measure; congruence. }
  rewrite E_swap.
  transitivity
    (E (random_bits n_bits)
       (on_return (fun bob_bases =>
          if (length (kept n_bits alice_bases bob_bases) =? 0)%nat
          then 0 else 1 # 2))).
  { eapply E_ext_always; [apply always_random_bits |].
    intros bob_bases [Hbob _]. cbn [on_return].
    now apply E_error_rate_resend. }
  unfold random_bits, kept, range. rewrite <- Hbases.
  apply E_kept_nonempty; [assumption |].
  now rewrite length_seq.
Qed.

End ExpectedErrorRate.

(* ===================================================================== *)
(** ** Properties of the protocol run *)
(* ===================================================================== *)

Lemma simulate_bb84_nonpositive (n_bits : Z) (eavesdrop : bool) :
  (n_bits <= 0)%Z -> simulate_bb84 n_bits eavesdrop = Ret ([], [], 0%Q).
Proof.
  intros Hn. assert (Hz : Z.to_nat n_bits = 0) by lia.
  unfold simulate_bb84, random_bits, prepare_loop, eve_loop, bob_loop,
    sift_loop, range.
  rewrite Hz. now destruct eavesdrop.
Qed.

(** C9. For every [n_bits <= 0] and either value of [eavesdrop],
    [simulate_bb84] returns [([], [], 0.0)] and raises nothing: the
    generated lists are empty, so are the sifted keys, and the QBER is the
    0.0 of the empty case. *)
Theorem nonpositive_count_returns_empty (n_bits : Z) (eavesdrop : bool) :
  (n_bits <= 0)%Z ->
  random_bits n_bits = Ret []
  /\ simulate_bb84 n_bits eavesdrop = Ret ([], [], 0%Q)
  /\ PrRaise (simulate_bb84 n_bits eavesdrop) == 0.
Proof.
  intros Hn. split; [| split].
  - unfold random_bits, range. now replace (Z.to_nat n_bits) with 0 by lia.
  - now apply simulate_bb84_nonpositive.
  - now rewrite simulate_bb84_nonpositive.
Qed.

Lemma nonpositive_count_returns_empty_witness :
  (-3 <= 0)%Z
  /\ random_bits (-3) = Ret []
  /\ simulate_bb84 (-3) true = Ret ([], [], 0%Q)
  /\ PrRaise (simulate_bb84 (-3) true) == 0.
Proof.
  split; [lia |]. apply (nonpositive_count_returns_empty (-3) true). lia.
Defined.

(** C8, as stated, fails: with a zero or a negative count the run does not
    fail, it returns. *)
Lemma nonpositive_count_does_not_fail :
  ~ fails (simulate_bb84 0 false) /\ ~ fails (simulate_bb84 (-1) true).
Proof. split; vm_compute; auto. Qed.

(** C8, amended. A zero or negative qubit count is not checked: the run
    never fails and returns a result. *)
Theorem nonpositive_count_is_not_rejected (n_bits : Z) (eavesdrop : bool) :
  (n_bits <= 0)%Z ->
  always (simulate_bb84 n_bits eavesdrop) (fun _ => True)
  /\ ~ fails (simulate_bb84 n_bits eavesdrop).
Proof.
  intros Hn. rewrite simulate_bb84_nonpositive by assumption. cbn. auto.
Qed.

Lemma nonpositive_count_is_not_rejected_witness :
  (0 <= 0)%Z
  /\ always (simulate_bb84 0 false) (fun _ => True)
  /\ ~ fails (simulate_bb84 0 false).
Proof.
  split; [lia |]. apply (nonpositive_count_is_not_rejected 0 false). lia.
Defined.

Lemma replay_possible {A} (m : prog A) : forall choices o,
  replay m choices = Some o -> possible m o.
Proof.
  induction m as [a|e|p l IHl r IHr]; intros [|c choices] o; cbn;
    try discriminate.
  - intros [= <-]. constructor.
  - intros [= <-]. constructor.
  - destruct c; intros Hr.
    + apply possible_left. eauto.
    + apply possible_right. eauto.
Qed.

Lemma length_filter_seq_shift (f g : nat -> bool) (m : nat) : forall k,
  (forall i, f (S i) = g i) ->
  length (List.filter f (seq (S k) m)) = length (List.filter g (seq k m)).
Proof.
  induction m as [|m IH]; intros k Hfg; [reflexivity |].
  cbn [seq List.filter]. rewrite Hfg.
  destruct (g k); cbn [length]; now rewrite IH.
Qed.

(** The count of step 6 is the count of the positions of the sifted keys
    that hold different bits. *)
Lemma count_differ_disagreements (l1 l2 : list Z) :
  length l1 = length l2 -> count_differ l1 l2 = disagreements l1 l2.
Proof.
  revert l2. induction l1 as [|a l1 IH]; intros [|b l2] Hlen;
    try discriminate; [reflexivity |].
  injection Hlen as Hlen. specialize (IH l2 Hlen).
  pose proof (length_filter_seq_shift
                (fun i => negb (nth i (a :: l1) 0 =? nth i (b :: l2) 0)%Z)
                (fun i => negb (nth i l1 0 =? nth i l2 0)%Z)
                (length l1) 0 (fun _ => eq_refl)) as Hshift.
  unfold count_differ, disagreements in *.
  cbn [length seq List.filter].
  change (nth 0 (a :: l1) 0%Z) with a. change (nth 0 (b :: l2) 0%Z) with b.
  destruct (a =? b)%Z eqn:Hab; cbn [negb length];
    rewrite Hshift, <- IH; cbn; now rewrite Hab.
Qed.

Lemma qber_float_bounds (sifted_alice sifted_bob : list Z) :
  (0 <= qber_float sifted_alice sifted_bob <= 1)%Q.
Proof. apply round_double_unit, error_rate_bounds. Qed.

Lemma qber_float_empty (sifted_alice sifted_bob : list Z) :
  length sifted_alice = 0 -> qber_float sifted_alice sifted_bob = 0%Q.
Proof.
  intros Hlen. unfold qber_float. now rewrite error_rate_empty.
Qed.

Lemma qber_float_same (sifted : list Z) : qber_float sifted sifted = 0%Q.
Proof. apply round_double_zero, error_rate_same. Qed.

(** The error rate as the quotient of the disagreements by the length. *)
Lemma error_rate_disagreements (sifted_alice sifted_bob : list Z) :
  length sifted_alice = length sifted_bob ->
  length sifted_alice <> 0 ->
  (error_rate sifted_alice sifted_bob
   == inject_Z (Z.of_nat (disagreements sifted_alice sifted_bob))
      / inject_Z (Z.of_nat (length sifted_alice)))%Q.
Proof.
  intros Hlen Hne. rewrite <- count_differ_disagreements by assumption.
  now apply error_rate_quotient.
Qed.

(** C7, amended. In every trial the returned QBER lies in [0, 1] and is 0.0
    when the sifted key is empty. When it is not, the QBER is the float
    nearest to the count of sifted positions where the sender's bit is not
    the receiver's divided by the sifted length: a value within the
    relative error 2^-53 of that quotient. Step 6 never divides by zero,
    although the division alone would raise on a zero length. *)
Theorem qber_is_nearest_float (n_bits : Z) (eavesdrop : bool) :
  always (simulate_bb84 n_bits eavesdrop)
    (fun t =>
       let '(sifted_key_alice, sifted_key_bob, qber) := t in
       let quotient :=
         (inject_Z (Z.of_nat (disagreements sifted_key_alice sifted_key_bob))
          / inject_Z (Z.of_nat (length sifted_key_alice)))%Q in
       (0 <= qber <= 1)%Q
       /\ (length sifted_key_alice = 0 -> qber = 0%Q)
       /\ (length sifted_key_alice <> 0 ->
           qber = round_double quotient
           /\ (quotient * (1 - (1 # 2 ^ 53)) <= qber)%Q
           /\ (qber <= quotient * (1 + (1 # 2 ^ 53)))%Q)
       /\ qber_of sifted_key_alice sifted_key_bob = Ret qber)
  /\ (forall sifted_key_alice sifted_key_bob,
        ~ fails (qber_of sifted_key_alice sifted_key_bob))
  /\ (forall errors, truediv errors 0 = Raise ZeroDivisionError).
Proof.
  split; [| split].
  - eapply always_impl; [apply always_simulate_bb84 |].
    intros [[sa sb] qber] (abits & abases & bbases & res & _ & _ & _ & _ & _ & Ht).
    cbv zeta in Ht. injection Ht as -> -> ->.
    set (sa := pick abits (kept n_bits abases bbases)).
    set (sb := pick res (kept n_bits abases bbases)).
    assert (Hlen : length sa = length sb)
      by (unfold sa, sb; now rewrite !length_pick).
    split; [apply qber_float_bounds |].
    split; [apply qber_float_empty |].
    split; [| apply qber_of_eq].
    intros Hne.
    pose proof (error_rate_disagreements sa sb Hlen Hne) as Hq.
    assert (Hr : qber_float sa sb
                 = round_double
                     (inject_Z (Z.of_nat (disagreements sa sb))
                      / inject_Z (Z.of_nat (length sa))))
      by now apply round_double_comp.
    split; [exact Hr |].
    rewrite <- Hq. apply round_double_error, error_rate_bounds.
  - intros sa sb. rewrite qber_of_eq. cbn. auto.
  - reflexivity.
Qed.

(** C7, counterexample. The returned QBER is not the quotient itself: a
    run over three qubits with eavesdropping returns the sifted keys
    [0, 0, 0] and [1, 0, 0], which differ at one position of three, with
    the QBER 6004799503160661 / 2^54, the float 0.3333333333333333, and
    that is not 1/3. *)
Lemma qber_is_not_the_quotient :
  let sifted_key_alice := [0; 0; 0]%Z in
  let sifted_key_bob := [1; 0; 0]%Z in
  let qber := (6004799503160661 # 18014398509481984)%Q in
  possible (simulate_bb84 3 true)
           (Returned (sifted_key_alice, sifted_key_bob, qber))
  /\ qber_of sifted_key_alice sifted_key_bob = Ret qber
  /\ disagreements sifted_key_alice sifted_key_bob = 1
  /\ length sifted_key_alice = 3
  /\ ~ (qber == inject_Z 1 / inject_Z 3)%Q.
Proof.
  cbv zeta. split; [| split; [| split; [| split]]].
  - apply replay_possible
      with (choices := [true; true; true; true; true; true; true; true; true;
                        false; true; true; true; true; true]).
    lazy. reflexivity.
  - vm_compute. reflexivity.
  - reflexivity.
  - reflexivity.
  - intros Heq. vm_compute in Heq. discriminate.
Qed.

(** [simulate_bb84] returns the result of the run whose lists
    [simulate_bb84_locals] shows. *)
Lemma simulate_bb84_of_locals (n_bits : Z) (eavesdrop : bool) :
  simulate_bb84 n_bits eavesdrop
  = (r <- simulate_bb84_locals n_bits eavesdrop ;; Ret (snd r)).
Proof.
  unfold simulate_bb84, simulate_bb84_locals.
  rewrite bind_assoc. apply bind_ext. intros alice_bits.
  rewrite bind_assoc. apply bind_ext. intros alice_bases.
  rewrite bind_assoc. apply bind_ext. intros circuits.
  rewrite bind_assoc. apply bind_ext. intros circuits'.
  rewrite bind_assoc. apply bind_ext. intros bob_bases.
  rewrite bind_assoc. apply bind_ext. intros [circuits'' bob_results].
  rewrite bind_assoc. apply bind_ext. intros [sifted_key_alice sifted_key_bob].
  rewrite bind_assoc. apply bind_ext. intros qber.
  now rewrite bind_ret_l.
Qed.

(** Every run of the simulation, with its lists: the sifted keys are the
    values at the kept positions of the bases of this run. *)
Lemma always_simulate_bb84_locals (n_bits : Z) (eavesdrop : bool) :
  always (simulate_bb84_locals n_bits eavesdrop)
    (fun r =>
       let '(alice_bits, alice_bases, bob_bases, bob_results, t) := r in
       length alice_bits = Z.to_nat n_bits
       /\ length alice_bases = Z.to_nat n_bits
       /\ length bob_bases = Z.to_nat n_bits
       /\ length bob_results = Z.to_nat n_bits
       /\ let positions := kept n_bits alice_bases bob_bases in
          let sifted_alice := pick alice_bits positions in
          let sifted_bob := pick bob_results positions in
          t = (sifted_alice, sifted_bob, qber_float sifted_alice sifted_bob)).
Proof.
  unfold simulate_bb84_locals.
  eapply always_bind; [apply always_random_bits |].
  intros alice_bits [Hbits _].
  eapply always_bind; [apply always_random_bits |].
  intros alice_bases [Hbases _].
  rewrite prepare_loop_eq, bind_ret_l by assumption.
  eapply always_bind with (P := fun cs => length cs = Z.to_nat n_bits).
  { destruct eavesdrop.
    - eapply always_bind; [apply always_random_bits |].
      intros eve_bases [Heve _].
      rewrite eve_loop_eq by (rewrite ?length_zip_with_same; congruence).
      eapply always_impl; [apply always_resend_all_length |].
      cbv beta. congruence.
    - cbn. rewrite length_zip_with_same; congruence. }
  intros states Hstates.
  eapply always_bind; [apply always_random_bits |].
  intros bob_bases [Hbob _].
  rewrite bob_loop_eq, bind_assoc by assumption.
  eapply always_bind; [apply always_measure_all_length |].
  intros bob_results Hres. cbv beta in Hres.
  rewrite length_zip_with_same in Hres by congruence.
  rewrite bind_ret_l, sift_loop_eq, bind_ret_l by congruence.
  rewrite qber_of_eq, bind_ret_l. cbn [always].
  repeat split; congruence.
Qed.

(** C6. In every trial the two sifted keys have the same length, the count
    of the positions [i] of [range(n_bits)] where Alice's basis of this
    run is Bob's basis of this run; the keys hold Alice's bits and Bob's
    results at exactly these positions, in increasing order of [i]. *)
Theorem sifted_length_invariant (n_bits : Z) (eavesdrop : bool) :
  simulate_bb84 n_bits eavesdrop
  = (r <- simulate_bb84_locals n_bits eavesdrop ;; Ret (snd r))
  /\ always (simulate_bb84_locals n_bits eavesdrop)
       (fun r =>
          let '(alice_bits, alice_bases, bob_bases, bob_results,
                (sifted_key_alice, sifted_key_bob, qber)) := r in
          length alice_bases = Z.to_nat n_bits
          /\ length bob_bases = Z.to_nat n_bits
          /\ length sifted_key_alice = length sifted_key_bob
          /\ length sifted_key_alice
             = count_matching n_bits alice_bases bob_bases
          /\ length sifted_key_alice
             = length (List.filter
                         (fun i => (nth i alice_bases 0 =? nth i bob_bases 0)%Z)
                         (seq 0 (Z.to_nat n_bits)))
          /\ exists positions : list nat,
               StronglySorted lt positions
               /\ (forall i, In i positions <->
                             i < Z.to_nat n_bits
                             /\ nth i alice_bases 0%Z = nth i bob_bases 0%Z)
               /\ sifted_key_alice
                  = map (fun i => nth i alice_bits 0%Z) positions
               /\ sifted_key_bob
                  = map (fun i => nth i bob_results 0%Z) positions).
Proof.
  split; [apply simulate_bb84_of_locals |].
  eapply always_impl; [apply always_simulate_bb84_locals |].
  intros [[[[abits abases] bbases] res] [[sa sb] qber]]
         (Hbits & Hbases & Hbob & Hres & Ht).
  cbv zeta in Ht. injection Ht as -> -> ->.
  split; [exact Hbases |]. split; [exact Hbob |].
  split; [now rewrite !length_pick |].
  split; [now rewrite length_pick, length_kept |].
  split; [now rewrite length_pick |].
  exists (kept n_bits abases bbases).
  split; [apply kept_increasing |].
  split; [| split; reflexivity].
  intros i. rewrite In_kept. unfold same_basis. now rewrite Z.eqb_eq.
Qed.

(** C3. For every qubit count, a trial without eavesdropping ends, with
    probability 1, with Bob's sifted key equal to Alice's and a QBER of
    exactly 0. *)
Theorem no_eavesdrop_keys_agree (n_bits : Z) :
  always (simulate_bb84 n_bits false)
         (fun t => fst (fst t) = snd (fst t) /\ (snd t == 0)%Q)
  /\ (Pr (simulate_bb84 n_bits false)
         (fun t => bool_decide (fst (fst t) = snd (fst t))
                   && Qeq_bool (snd t) 0)
      == 1)%Q.
Proof.
  assert (Hall : always (simulate_bb84 n_bits false)
                   (fun t => fst (fst t) = snd (fst t) /\ (snd t == 0)%Q)).
  { eapply always_impl; [apply always_simulate_bb84 |].
    intros t (abits & abases & bbases & res & _ & _ & _ & _ & Hagree & Ht).
    cbv zeta in Ht. subst t. cbn [fst snd].
    assert (Heq : pick abits (kept n_bits abases bbases)
                  = pick res (kept n_bits abases bbases)).
    { unfold pick. apply map_ext_in. intros i Hi.
      apply In_kept in Hi as [Hi Hsame]. symmetry. now apply Hagree. }
    split; [exact Heq |]. rewrite Heq. now rewrite qber_float_same. }
  split; [exact Hall |].
  apply always_Pr. eapply always_impl; [exact Hall |].
  intros t [Hkeys Hq]. cbv beta.
  rewrite bool_decide_eq_true_2 by assumption.
  now apply Qeq_bool_iff in Hq as ->.
Qed.

(* ===================================================================== *)
(** ** Properties of the qubit channel *)
(* ===================================================================== *)

(** C2. For every bit and every basis in {0, 1}, the state prepared from
    [(bit, basis)] and measured in the same basis reads [bit] with
    probability 1: so it is for the one-position run of Alice's and Bob's
    loops. *)
Theorem matched_basis_determinism (bit basis : Z) :
  is_bit bit -> is_bit basis ->
  measure_state (prepare bit basis) basis = Ret bit
  /\ (Pr (measure_state (prepare bit basis) basis) (Z.eqb bit) == 1)%Q
  /\ (circuits <- prepare_loop 1 [bit] [basis] ;;
      bob_loop 1 [basis] circuits)
     = Ret ([measure_in basis (prepare bit basis)], [bit]).
Proof.
  intros Hbit _.
  pose proof (measure_matched bit basis Hbit) as Hm.
  split; [exact Hm |]. split.
  - rewrite Hm. unfold Pr. cbn. now rewrite Z.eqb_refl.
  - rewrite prepare_loop_eq, bind_ret_l, bob_loop_eq by reflexivity.
    cbn [zip_with]. rewrite measure_all_cons.
    fold (measure_state (prepare bit basis) basis). rewrite Hm.
    reflexivity.
Qed.

Lemma matched_basis_determinism_witness :
  is_bit 1 /\ is_bit 1
  /\ measure_state (prepare 1 1) 1 = Ret 1%Z
  /\ (Pr (measure_state (prepare 1 1) 1) (Z.eqb 1) == 1)%Q
  /\ (circuits <- prepare_loop 1 [1%Z] [1%Z] ;; bob_loop 1 [1%Z] circuits)
     = Ret ([measure_in 1 (prepare 1 1)], [1%Z]).
Proof.
  split; [now right |]. split; [now right |].
  apply (matched_basis_determinism 1 1); now right.
Defined.

(** C4. For every bit and every basis in {0, 1}, the state prepared from
    [(bit, basis)] and measured in the other basis reads [bit] with
    probability 1/2 and [1 - bit] with probability 1/2; two such
    measurements in a row read each pair of bits with probability 1/4, the
    product of the two; so it is for the one-position run of Alice's and
    Bob's loops. *)
Theorem mismatched_basis_uniformity (bit basis bit' basis' r r' : Z) :
  is_bit bit -> is_bit basis -> is_bit bit' -> is_bit basis' ->
  is_bit r -> is_bit r' ->
  (Pr (measure_state (prepare bit basis) (1 - basis)) (Z.eqb bit) == 1 # 2)%Q
  /\ (Pr (measure_state (prepare bit basis) (1 - basis)) (Z.eqb (1 - bit))
      == 1 # 2)%Q
  /\ (Pr (first <- measure_state (prepare bit basis) (1 - basis) ;;
          second <- measure_state (prepare bit' basis') (1 - basis') ;;
          Ret (first, second))
         (fun reads => (fst reads =? r)%Z && (snd reads =? r')%Z)
      == (1 # 2) * (1 # 2))%Q
  /\ (circuits <- prepare_loop 1 [bit] [basis] ;;
      '(_, bob_results) <- bob_loop 1 [(1 - basis)%Z] circuits ;;
      Ret bob_results)
     = Choice (1 # 2) (Ret [0%Z]) (Ret [1%Z]).
Proof.
  intros Hbit Hbasis Hbit' Hbasis' Hr Hr'.
  pose proof (measure_mismatched bit basis (1 - basis) (is_bit_flip _ Hbasis))
    as Hm.
  pose proof (measure_mismatched bit' basis' (1 - basis') (is_bit_flip _ Hbasis'))
    as Hm'.
  rewrite Hm, Hm'. unfold Pr.
  repeat split.
  - destruct Hbit as [-> | ->]; reflexivity.
  - destruct Hbit as [-> | ->]; reflexivity.
  - destruct Hr as [-> | ->], Hr' as [-> | ->]; reflexivity.
  - rewrite prepare_loop_eq, bind_ret_l, bob_loop_eq by reflexivity.
    cbn [zip_with]. rewrite measure_all_cons.
    fold (measure_state (prepare bit basis) (1 - basis)). rewrite Hm.
    reflexivity.
Qed.

Lemma mismatched_basis_uniformity_witness :
  is_bit 1 /\ is_bit 0
  /\ (Pr (measure_state (prepare 1 0) (1 - 0)) (Z.eqb 1) == 1 # 2)%Q
  /\ (Pr (measure_state (prepare 1 0) (1 - 0)) (Z.eqb (1 - 1)) == 1 # 2)%Q
  /\ (Pr (first <- measure_state (prepare 1 0) (1 - 0) ;;
          second <- measure_state (prepare 0 1) (1 - 1) ;;
          Ret (first, second))
         (fun reads => (fst reads =? 0)%Z && (snd reads =? 1)%Z)
      == (1 # 2) * (1 # 2))%Q
  /\ (circuits <- prepare_loop 1 [1%Z] [0%Z] ;;
      '(_, bob_results) <- bob_loop 1 [(1 - 0)%Z] circuits ;;
      Ret bob_results)
     = Choice (1 # 2) (Ret [0%Z]) (Ret [1%Z]).
Proof.
  split; [now right |]. split; [now left |].
  apply (mismatched_basis_uniformity 1 0 0 1 0 1);
    unfold is_bit; auto.
Defined.

(* ===================================================================== *)
(** ** Properties of the eavesdropper *)
(* ===================================================================== *)





(** Running the measurement and dropping the bit read would not change
    the distribution of the state forwarded. *)
Lemma intercept_measure_resend_same_distribution
    (basis : Z) (state : circuit) (G : circuit -> Q) :
  (E (intercept_measure_resend basis state) (on_return G)
   == E (resend basis) (on_return G))%Q.
Proof.
  unfold intercept_measure_resend. rewrite E_bind_on_return.
  eapply E_on_return_const with (P := fun _ => True).
  - apply run_measure_in_returns.
  - intros measured_bit _. reflexivity.
Qed.






Lemma E_scale_r {A} (m : prog A) (c : Q) (f : A -> Q) :
  (E m (on_return (fun a => f a * c)) == E m (on_return f) * c)%Q.
Proof.
  rewrite Qmult_comm, <- E_scale. apply E_on_return_ext. intros a. ring.
Qed.

Lemma E_le_always {A} (m : prog A) (P : A -> Prop) (f g : A -> Q) :
  proper m -> always m P -> (forall a, P a -> (f a <= g a)%Q) ->
  (E m (on_return f) <= E m (on_return g))%Q.
Proof.
  intros Hproper Hall Hfg.
  induction m as [a|e|p l IHl r IHr]; cbn in *.
  - now apply Hfg.
  - destruct Hall.
  - destruct Hproper as ((Hp0 & Hp1) & Hl & Hr), Hall as [Hal Har].
    specialize (IHl Hl Hal). specialize (IHr Hr Har).
    apply Qplus_le_compat; apply Qmult_le_l; try assumption.
    now apply (Qlt_minus_iff p 1).
Qed.

(** The QBER of every run is the float of the error rate of its keys. *)
Lemma always_qber_is_float (n_bits : Z) (eavesdrop : bool) :
  always (simulate_bb84 n_bits eavesdrop)
    (fun t => qber_value t
              = round_double (error_rate (key_alice t) (key_bob t))).
Proof.
  eapply always_impl; [apply always_simulate_bb84 |].
  intros t (abits & abases & bbases & res & _ & _ & _ & _ & _ & Ht).
  cbv zeta in Ht. now subst t.
Qed.

(** With eavesdropping the expected QBER of a run over [n] qubits is
    within the relative error 2^-53 of [(1 - (1/2)^n) / 2]. *)
Lemma expected_qber_eavesdrop (n_bits : Z) :
  ((1 - half_pow (Z.to_nat n_bits)) * (1 # 2) * (1 - (1 # 2 ^ 53))
   <= E (simulate_bb84 n_bits true) (on_return snd))%Q
  /\ (E (simulate_bb84 n_bits true) (on_return snd)
      <= (1 - half_pow (Z.to_nat n_bits)) * (1 # 2) * (1 + (1 # 2 ^ 53)))%Q.
Proof.
  rewrite <- (expected_error_rate_eavesdrop n_bits), <- !E_scale_r.
  split.
  - eapply E_le_always;
      [apply proper_simulate_bb84 | apply always_qber_is_float |].
    intros t Ht. cbv beta. change (snd t) with (qber_value t). rewrite Ht.
    apply round_double_error, error_rate_bounds.
  - eapply E_le_always;
      [apply proper_simulate_bb84 | apply always_qber_is_float |].
    intros t Ht. cbv beta. change (snd t) with (qber_value t). rewrite Ht.
    apply round_double_error, error_rate_bounds.
Qed.

(** The error rate of a key of at most two bits is a float. *)
Lemma qber_float_short (sifted_alice sifted_bob : list Z) :
  length sifted_alice <= 2 ->
  (qber_float sifted_alice sifted_bob == error_rate sifted_alice sifted_bob)%Q.
Proof.
  intros Hlen. pose proof (count_differ_le sifted_alice sifted_bob) as Hle.
  unfold qber_float, error_rate.
  destruct (length sifted_alice) as [|[|[|k]]]; [reflexivity | | | lia];
    destruct (count_differ sifted_alice sifted_bob) as [|[|[|c]]];
    try lia; vm_compute; reflexivity.
Qed.

Lemma expected_qber_eavesdrop_two :
  (E (simulate_bb84 2 true) (on_return snd) == 3 # 8)%Q.
Proof.
  transitivity
    (E (simulate_bb84 2 true)
       (on_return (fun t => error_rate (key_alice t) (key_bob t)))).
  - eapply E_ext_always; [apply always_simulate_bb84 |].
    intros t (abits & abases & bbases & res & _ & _ & _ & _ & _ & Ht).
    cbv zeta in Ht. subst t. cbn [on_return snd key_alice key_bob fst].
    apply qber_float_short. rewrite length_pick.
    unfold kept, range.
    etransitivity; [apply List.filter_length_le |]. now rewrite length_seq.
  - now rewrite expected_error_rate_eavesdrop.
Qed.

(** C1. The code does not meet the claimed error rate of 1/4 per sifted
    position. With eavesdropping the expected error rate of the sifted
    keys of a run over [n] qubits is [(1 - (1/2)^n) / 2]; the QBER
    returned is the float of that error rate, so the expected QBER is
    within the relative error 2^-53 of this value, which is 3/8, exactly,
    for two qubits and within [(1/2)^(n+1)] of 1/2 for every [n], not near
    1/4. With one qubit the position is sifted with probability 1/2 and
    sifted with differing bits with probability 1/4, that is, a sifted
    position differs with probability 1/2; and Bob's bit differs with
    probability 1/2 even when Eve measured in Alice's basis. *)
Theorem eavesdrop_error_rate_evaluated :
  (forall n_bits : Z,
     let expected := ((1 - half_pow (Z.to_nat n_bits)) * (1 # 2))%Q in
     (E (simulate_bb84 n_bits true)
        (on_return (fun t => error_rate (key_alice t) (key_bob t)))
      == expected)%Q
     /\ always (simulate_bb84 n_bits true)
          (fun t => qber_value t
                    = round_double (error_rate (key_alice t) (key_bob t)))
     /\ (expected * (1 - (1 # 2 ^ 53))
         <= E (simulate_bb84 n_bits true) (on_return snd))%Q
     /\ (E (simulate_bb84 n_bits true) (on_return snd)
         <= expected * (1 + (1 # 2 ^ 53)))%Q)
  /\ (E (simulate_bb84 2 true) (on_return snd) == 3 # 8)%Q
  /\ (Pr (simulate_bb84 1 true)
         (fun t => negb (length (fst (fst t)) =? 0)) == 1 # 2)%Q
  /\ (Pr (simulate_bb84 1 true)
         (fun t => negb (length (fst (fst t)) =? 0)
                   && negb (bool_decide (fst (fst t) = snd (fst t))))
      == 1 # 4)%Q
  /\ (Pr (circuits <- prepare_loop 1 [0%Z] [0%Z] ;;
          circuits <- eve_loop 1 [0%Z] circuits ;;
          '(_, bob_results) <- bob_loop 1 [0%Z] circuits ;;
          Ret bob_results)
         (differs_at 0 0)
      == 1 # 2)%Q.
Proof.
  split.
  { intros n_bits. cbv zeta.
    split; [apply expected_error_rate_eavesdrop |].
    split; [apply always_qber_is_float |].
    apply expected_qber_eavesdrop. }
  split; [exact expected_qber_eavesdrop_two |].
  repeat split; vm_compute; reflexivity.
Qed.

(* ===================================================================== *)
(** ** Further properties of [simulate_bb84] *)
(* ===================================================================== *)

(** X1. For every qubit count and either flag, no run of [simulate_bb84]
    raises: no index is out of range in any of the loops and step 6 never
    divides by zero. *)
Theorem simulate_bb84_never_raises (n_bits : Z) (eavesdrop : bool) :
  always (simulate_bb84 n_bits eavesdrop) (fun _ => True)
  /\ ~ fails (simulate_bb84 n_bits eavesdrop)
  /\ (PrRaise (simulate_bb84 n_bits eavesdrop) == 0)%Q.
Proof.
  pose proof (always_simulate_bb84 n_bits eavesdrop) as Hall.
  split; [| split].
  - eapply always_impl; [exact Hall | trivial].
  - revert Hall. generalize (arises_from n_bits eavesdrop).
    induction (simulate_bb84 n_bits eavesdrop) as [a|e|p l IHl r IHr];
      cbn; intros P Hall; [tauto | tauto |].
    intros [Hl _]. now apply (IHl P).
  - eapply always_PrRaise. exact Hall.
Qed.

Lemma Forall_is_bit_pick (l : list Z) (positions : list nat) :
  Forall is_bit l -> Forall is_bit (pick l positions).
Proof.
  intros Hl. unfold pick. apply Forall_map, Forall_forall. intros i _.
  rewrite nth_lookup. destruct (l !! i) as [b|] eqn:Hb; cbn.
  - eapply Forall_lookup_1; eauto.
  - now left.
Qed.

Lemma always_measure_all_bits (bases : list Z) (states : list circuit) :
  always (measure_all (zip_with measure_in bases states)) (Forall is_bit).
Proof.
  eapply always_impl.
  - apply always_list_comp_each_in with (P := fun _ bit => is_bit bit).
    apply Forall_zip_with_measure_in. intros basis qc.
    apply run_one_shot_is_bit, measured_measure_in.
  - intros bits Hbits. induction Hbits; constructor; auto.
Qed.

Lemma length_kept_le n_bits alice_bases bob_bases :
  length (kept n_bits alice_bases bob_bases) <= Z.to_nat n_bits.
Proof.
  unfold kept, range.
  etransitivity; [apply List.filter_length_le |]. now rewrite length_seq.
Qed.

(** X2. In every run both sifted keys consist of bits 0 and 1 only and are
    at most [n_bits] long (empty for a count that is not positive). *)
Theorem sifted_keys_are_bits (n_bits : Z) (eavesdrop : bool) :
  always (simulate_bb84 n_bits eavesdrop)
    (fun t => Forall is_bit (key_alice t) /\ Forall is_bit (key_bob t)
              /\ (Z.of_nat (length (key_alice t)) <= Z.max 0 n_bits)%Z
              /\ (Z.of_nat (length (key_bob t)) <= Z.max 0 n_bits)%Z).
Proof.
  rewrite simulate_bb84_eq. unfold trial.
  eapply always_bind; [apply always_random_bits |].
  intros alice_bits [_ Hbits].
  eapply always_bind; [apply always_random_bits |].
  intros alice_bases _.
  eapply always_bind with (P := fun _ => True).
  { destruct eavesdrop; [| exact I].
    eapply always_bind; [apply always_random_bits |]. intros eve_bases _.
    eapply always_impl; [apply always_resend_all_length | trivial]. }
  intros states _.
  eapply always_bind; [apply always_random_bits |].
  intros bob_bases _.
  eapply always_bind; [apply always_measure_all_bits |].
  intros bob_results Hres. cbn.
  unfold key_alice, key_bob. cbn [fst snd].
  rewrite !length_pick.
  pose proof (length_kept_le n_bits alice_bases bob_bases).
  repeat split; try (now apply Forall_is_bit_pick); lia.
Qed.

Lemma qber_in_unit_interval_run (n_bits : Z) (eavesdrop : bool) :
  always (simulate_bb84 n_bits eavesdrop)
    (fun t => (0 <= snd t <= 1)%Q).
Proof.
  eapply always_impl; [apply always_simulate_bb84 |].
  intros t (abits & abases & bbases & res & _ & _ & _ & _ & _ & Ht).
  cbv zeta in Ht. subst t. apply qber_float_bounds.
Qed.

Lemma count_differ_zero_iff (l1 : list Z) : forall l2,
  length l1 = length l2 -> (count_differ l1 l2 = 0 <-> l1 = l2).
Proof.
  unfold count_differ.
  induction l1 as [|a l1 IH]; intros [|b l2] Hlen; try discriminate.
  - cbn. tauto.
  - injection Hlen as Hlen. specialize (IH l2 Hlen). cbn.
    destruct (a =? b)%Z eqn:Hab.
    + apply Z.eqb_eq in Hab. subst b. cbn. rewrite IH.
      split; [now intros -> | now intros [= ->]].
    + apply Z.eqb_neq in Hab. split; [discriminate | intros [= -> _]; congruence].
Qed.

Lemma error_rate_zero_iff (sifted_alice sifted_bob : list Z) :
  length sifted_alice = length sifted_bob ->
  ((error_rate sifted_alice sifted_bob == 0)%Q <-> sifted_alice = sifted_bob).
Proof.
  intros Hlen. rewrite <- (count_differ_zero_iff _ _ Hlen).
  unfold error_rate.
  destruct sifted_alice as [|a l1]; destruct sifted_bob as [|b l2];
    try discriminate; [now cbn |].
  cbn [length]. unfold Qeq. cbn [Qnum Qden]. lia.
Qed.

Lemma qber_float_zero_iff (sifted_alice sifted_bob : list Z) :
  length sifted_alice = length sifted_bob ->
  ((qber_float sifted_alice sifted_bob == 0)%Q <-> sifted_alice = sifted_bob).
Proof.
  intros Hlen. rewrite <- (error_rate_zero_iff _ _ Hlen).
  apply round_double_zero_iff, error_rate_bounds.
Qed.

Lemma qber_zero_iff_keys_equal_run (n_bits : Z) (eavesdrop : bool) :
  always (simulate_bb84 n_bits eavesdrop)
    (fun t => (qber_value t == 0)%Q <-> key_alice t = key_bob t).
Proof.
  eapply always_impl; [apply always_simulate_bb84 |].
  intros t (abits & abases & bbases & res & _ & _ & _ & _ & _ & Ht).
  cbv zeta in Ht. subst t. unfold qber_value, key_alice, key_bob. cbn [fst snd].
  apply qber_float_zero_iff. now rewrite !length_pick.
Qed.

(** X3. In every run the returned QBER is 0 exactly when the two sifted
    keys are identical, and 0 or positive otherwise: a QBER of 0 says that
    no sifted position differs. *)
Theorem qber_zero_iff_keys_equal (n_bits : Z) (eavesdrop : bool) :
  always (simulate_bb84 n_bits eavesdrop)
    (fun t => ((qber_value t == 0)%Q <-> key_alice t = key_bob t)
              /\ (key_alice t <> key_bob t -> (0 < qber_value t)%Q)).
Proof.
  eapply always_impl.
  - apply always_and;
      [apply qber_zero_iff_keys_equal_run | apply qber_in_unit_interval_run].
  - intros [[sa sb] q] [Hiff Hq]. split; [exact Hiff |].
    intros Hne. unfold qber_value in *. cbn [snd] in *.
    destruct (Qlt_le_dec 0 q) as [Hpos | Hle]; [exact Hpos |].
    exfalso. apply Hne, Hiff. apply Qle_antisym; tauto.
Qed.

(* ===================================================================== *)
(** ** Sifting statistics *)
(* ===================================================================== *)

Section SiftingStatistics.
Local Open Scope Q_scope.

Lemma random_bits_returns (n_bits : Z) : always (random_bits n_bits) (fun _ => True).
Proof. eapply always_impl; [apply always_random_bits | trivial]. Qed.

Lemma E_one {A} (m : prog A) :
  always m (fun _ => True) -> E m (on_return (fun _ => 1)) == 1.
Proof. intros Hm. eapply E_on_return_const; [exact Hm |]. reflexivity. Qed.

(** A function of Alice's sifted key is averaged over Alice's bits and the
    two parties' bases only. *)
Lemma E_simulate_key_alice (n_bits : Z) (eavesdrop : bool) (G : list Z -> Q) :
  E (simulate_bb84 n_bits eavesdrop) (on_return (fun t => G (key_alice t)))
  == E (random_bits n_bits) (on_return (fun alice_bits =>
       E (random_bits n_bits) (on_return (fun alice_bases =>
         E (random_bits n_bits) (on_return (fun bob_bases =>
           G (pick alice_bits (kept n_bits alice_bases bob_bases)))))))).
Proof.
  rewrite simulate_bb84_eq. unfold trial.
  rewrite E_bind_on_return. apply E_on_return_ext. intros alice_bits.
  rewrite E_bind_on_return. apply E_on_return_ext. intros alice_bases.
  rewrite E_bind_on_return.
  eapply E_on_return_const with (P := fun _ => True).
  { destruct eavesdrop; [| exact I].
    eapply always_bind; [apply random_bits_returns |]. intros eve_bases _.
    eapply always_impl; [apply always_resend_all_length | trivial]. }
  intros states _. cbv beta.
  rewrite E_bind_on_return. apply E_on_return_ext. intros bob_bases.
  rewrite E_bind_on_return.
  eapply E_on_return_const with (P := fun _ => True).
  { eapply always_impl; [apply always_measure_all_length | trivial]. }
  intros bob_results _. reflexivity.
Qed.

(** Averaged over Bob's bases, half of the positions are kept. *)
Lemma E_kept_length (alice_bases : list Z) :
  Forall is_bit alice_bases ->
  forall indices : list nat,
  length indices = length alice_bases ->
  E (list_comp indices (fun _ => randint 0 1))
    (on_return (fun bob_bases =>
       inject_Z (Z.of_nat
         (length (List.filter (same_basis alice_bases bob_bases)
                              (seq 0 (length alice_bases)))))))
  == inject_Z (Z.of_nat (length alice_bases)) * (1 # 2).
Proof.
  induction 1 as [|a0 a Ha0 Ha IH]; intros indices Hlen.
  - destruct indices; [| discriminate]. cbn. reflexivity.
  - destruct indices as [|j indices]; [discriminate |].
    injection Hlen as Hlen. specialize (IH indices Hlen).
    cbn [list_comp]. rewrite E_bind_on_return, E_randint_0_1.
    cbn [on_return length seq].
    rewrite !E_bind_on_return. cbn [E on_return].
    assert (Hstep : forall b0 : Z,
      E (list_comp indices (fun _ => randint 0 1))
        (on_return (fun bs =>
           inject_Z (Z.of_nat
             (length (List.filter (same_basis (a0 :: a) (b0 :: bs))
                                  (0%nat :: seq 1 (length a)))))))
      == (if (a0 =? b0)%Z then 1 else 0)
         + inject_Z (Z.of_nat (length a)) * (1 # 2)).
    { intros b0.
      assert (Hret : always (list_comp indices (fun _ => randint 0 1))
                            (fun _ => True)).
      { apply list_comp_returns. intros _.
        eapply always_impl; [apply always_randint_0_1 | trivial]. }
      transitivity
        (E (list_comp indices (fun _ => randint 0 1))
           (on_return (fun bs =>
              (if (a0 =? b0)%Z then 1 else 0)
              + inject_Z (Z.of_nat
                  (length (List.filter (same_basis a bs) (seq 0 (length a)))))))).
      - apply E_on_return_ext. intros bs. cbn [List.filter].
        change (same_basis (a0 :: a) (b0 :: bs) 0) with (a0 =? b0)%Z.
        rewrite <- (length_filter_same_basis_cons a0 b0 a bs (length a) 0).
        destruct (a0 =? b0)%Z; cbn [length].
        + rewrite Nat2Z.inj_succ. unfold Z.succ. rewrite inject_Z_plus. ring.
        + ring.
      - rewrite E_plus, IH.
        destruct (a0 =? b0)%Z; [rewrite (E_one _ Hret) | rewrite E_zero];
          reflexivity. }
    rewrite !Hstep, Nat2Z.inj_succ. unfold Z.succ. rewrite inject_Z_plus.
    destruct Ha0 as [-> | ->]; cbn; ring.
Qed.

Lemma E_kept_empty (alice_bases : list Z) (indices : list nat) :
  Forall is_bit alice_bases ->
  length indices = length alice_bases ->
  E (list_comp indices (fun _ => randint 0 1))
    (on_return (fun bob_bases =>
       if (length (List.filter (same_basis alice_bases bob_bases)
                               (seq 0 (length alice_bases))) =? 0)%nat
       then 1 else 0))
  == half_pow (length alice_bases).
Proof.
  intros Hbit Hlen.
  pose proof (E_kept_nonempty alice_bases Hbit indices Hlen) as Hne.
  assert (Hret : always (list_comp indices (fun _ => randint 0 1)) (fun _ => True)).
  { apply list_comp_returns. intros _.
    eapply always_impl; [apply always_randint_0_1 | trivial]. }
  transitivity (1 + (-2 # 1) * ((1 - half_pow (length alice_bases)) * (1 # 2)));
    [| ring].
  rewrite <- Hne, <- (E_one _ Hret), <- E_scale, <- E_plus.
  apply E_on_return_ext. intros bob_bases.
  destruct (_ =? 0)%nat; reflexivity.
Qed.

End SiftingStatistics.

(** X4. Eavesdropping does not change the distribution of Alice's sifted
    key: every event about it, and every average of a function of it, has
    the same value with and without eavesdropping. *)
Theorem eavesdropping_leaves_alice_key_alone
    (n_bits : Z) (P : list Z -> bool) (G : list Z -> Q) :
  (Pr (simulate_bb84 n_bits true) (fun t => P (key_alice t))
   == Pr (simulate_bb84 n_bits false) (fun t => P (key_alice t)))%Q
  /\ (E (simulate_bb84 n_bits true) (on_return (fun t => G (key_alice t)))
      == E (simulate_bb84 n_bits false) (on_return (fun t => G (key_alice t))))%Q.
Proof.
  split.
  - unfold Pr.
    rewrite (E_simulate_key_alice n_bits true (fun k => if P k then 1 else 0)%Q).
    now rewrite (E_simulate_key_alice n_bits false (fun k => if P k then 1 else 0)%Q).
  - now rewrite !E_simulate_key_alice.
Qed.

(** X5. With or without eavesdropping, the expected length of each sifted
    key is half the number of qubits sent. *)
Theorem expected_sifted_length (n_bits : Z) (eavesdrop : bool) :
  (E (simulate_bb84 n_bits eavesdrop)
     (on_return (fun t => inject_Z (Z.of_nat (length (key_alice t)))))
   == inject_Z (Z.max 0 n_bits) * (1 # 2))%Q
  /\ (E (simulate_bb84 n_bits eavesdrop)
        (on_return (fun t => inject_Z (Z.of_nat (length (key_bob t)))))
      == inject_Z (Z.max 0 n_bits) * (1 # 2))%Q.
Proof.
  assert (Halice :
    (E (simulate_bb84 n_bits eavesdrop)
       (on_return (fun t => inject_Z (Z.of_nat (length (key_alice t)))))
     == inject_Z (Z.max 0 n_bits) * (1 # 2))%Q).
  { rewrite (E_simulate_key_alice n_bits eavesdrop
               (fun k => inject_Z (Z.of_nat (length k)))).
    eapply E_on_return_const; [apply always_random_bits |].
    intros alice_bits _. cbv beta.
    eapply E_on_return_const; [apply always_random_bits |].
    intros alice_bases [Hbases Hbit]. cbv beta.
    replace (Z.max 0 n_bits) with (Z.of_nat (length alice_bases)) by lia.
    rewrite <- (E_kept_length alice_bases Hbit (range n_bits))
      by (unfold range; now rewrite length_seq).
    apply E_on_return_ext. intros bob_bases.
    rewrite length_pick. unfold kept, range. now rewrite Hbases. }
  split; [exact Halice |]. rewrite <- Halice.
  eapply E_ext_always; [apply always_simulate_bb84 |].
  intros t (abits & abases & bbases & res & _ & _ & _ & _ & _ & Ht).
  cbv zeta in Ht. subst t. unfold key_alice, key_bob. cbn [on_return fst snd].
  now rewrite !length_pick.
Qed.

(** X6. With or without eavesdropping, the sifted key is empty (the case
    in which the QBER is 0.0 by convention) with probability [(1/2)^n]
    for [n] qubits. *)
Theorem probability_sifted_key_empty (n_bits : Z) (eavesdrop : bool) :
  (Pr (simulate_bb84 n_bits eavesdrop)
      (fun t => (length (key_alice t) =? 0)%nat)
   == half_pow (Z.to_nat n_bits))%Q.
Proof.
  unfold Pr.
  rewrite (E_simulate_key_alice n_bits eavesdrop
             (fun k => if (length k =? 0)%nat then 1 else 0)%Q).
  eapply E_on_return_const; [apply always_random_bits |].
  intros alice_bits _. cbv beta.
  eapply E_on_return_const; [apply always_random_bits |].
  intros alice_bases [Hbases Hbit]. cbv beta.
  rewrite <- Hbases.
  rewrite <- (E_kept_empty alice_bases (range n_bits) Hbit)
    by (unfold range; now rewrite length_seq).
  apply E_on_return_ext. intros bob_bases.
  rewrite length_pick. unfold kept, range. now rewrite Hbases.
Qed.

(* ===================================================================== *)
(** ** The probability that eavesdropping goes unnoticed *)
(* ===================================================================== *)

Section Undetected.
Local Open Scope Q_scope.

Lemma filter_same_basis_cons a0 b0 (a b : list Z) (m : nat) : forall k,
  List.filter (same_basis (a0 :: a) (b0 :: b)) (seq (S k) m)
  = map S (List.filter (same_basis a b) (seq k m)).
Proof.
  induction m as [|m IH]; intros k; [reflexivity |].
  cbn [seq List.filter].
  change (same_basis (a0 :: a) (b0 :: b) (S k)) with (same_basis a b k).
  destruct (same_basis a b k); cbn [map]; now rewrite IH.
Qed.

Lemma pick_cons_S (v : Z) (l : list Z) (positions : list nat) :
  pick (v :: l) (map S positions) = pick l positions.
Proof. unfold pick. now rewrite map_map. Qed.

(** Sifting, position by position. *)
Lemma sift_cons (v a0 b0 : Z) (l a b : list Z) (m : nat) :
  pick (v :: l) (List.filter (same_basis (a0 :: a) (b0 :: b)) (seq 0 (S m)))
  = (if (a0 =? b0)%Z then [v] else [])
    ++ pick l (List.filter (same_basis a b) (seq 0 m)).
Proof.
  cbn [seq List.filter].
  change (same_basis (a0 :: a) (b0 :: b) 0) with (a0 =? b0)%Z.
  rewrite filter_same_basis_cons.
  destruct (a0 =? b0)%Z.
  - change (pick (v :: l) (0%nat :: ?ps)) with (v :: pick (v :: l) ps).
    now rewrite pick_cons_S.
  - now rewrite pick_cons_S.
Qed.

Lemma undetected_cons (bit basis bob_basis res : Z)
    (alice_bits alice_bases bob_bases bob_results : list Z) :
  undetected (bit :: alice_bits) (basis :: alice_bases)
             (bob_basis :: bob_bases) (res :: bob_results)
  == (if (basis =? bob_basis)%Z then agree bit res else 1)
     * undetected alice_bits alice_bases bob_bases bob_results.
Proof.
  unfold undetected, agree. cbn [length]. cbv zeta. rewrite !sift_cons.
  destruct (basis =? bob_basis)%Z; cbn [app].
  - destruct (Z.eqb_spec bit res) as [-> | Hne];
      repeat case_bool_decide; try reflexivity; exfalso; congruence.
  - repeat case_bool_decide; try reflexivity; exfalso; congruence.
Qed.

(** Bob's first read is independent of the others. *)
Lemma E_measure_all_undetected_cons (qc : circuit) (circuits : list circuit)
    (bit basis bob_basis : Z) (alice_bits alice_bases bob_bases : list Z) :
  E (measure_all (qc :: circuits))
    (on_return (undetected (bit :: alice_bits) (basis :: alice_bases)
                           (bob_basis :: bob_bases)))
  == E (run_one_shot qc)
       (on_return (fun res => if (basis =? bob_basis)%Z then agree bit res else 1))
     * E (measure_all circuits)
         (on_return (undetected alice_bits alice_bases bob_bases)).
Proof.
  rewrite measure_all_cons, E_bind_on_return, <- E_scale_r.
  apply E_on_return_ext. intros res.
  rewrite E_bind_on_return, <- E_scale.
  apply E_on_return_ext. intros bob_results. cbn [E on_return].
  apply undetected_cons.
Qed.

(** A state resent by Eve and measured by Bob agrees with any given bit
    with probability 1/2, whatever the two bases. *)
Lemma E_resend_measure_agree (bit basis eve_basis : Z) :
  is_bit bit ->
  (1 # 2) * E (run_one_shot (measure_in basis (prepare 0 eve_basis)))
              (on_return (agree bit))
  + (1 - (1 # 2)) * E (run_one_shot (measure_in basis (prepare 1 eve_basis)))
                      (on_return (agree bit))
  == 1 # 2.
Proof.
  intros Hbit.
  fold (measure_state (prepare 0 eve_basis) basis).
  fold (measure_state (prepare 1 eve_basis) basis).
  destruct (Bool.bool_dec (eve_basis =? 1)%Z (basis =? 1)%Z) as [Hsame | Hdiff].
  - rewrite !measure_same_gate by (unfold is_bit; auto).
    destruct Hbit as [-> | ->]; reflexivity.
  - rewrite !measure_mismatched by assumption.
    destruct Hbit as [-> | ->]; reflexivity.
Qed.

(** Given the bits and all the bases, the keys agree with probability
    [(1/2)^k] when [k] positions are kept. *)
Lemma E_resend_measure_undetected (alice_bases : list Z) :
  forall alice_bits eve_bases bob_bases : list Z,
  Forall is_bit alice_bits ->
  length alice_bits = length alice_bases ->
  length eve_bases = length alice_bases ->
  length bob_bases = length alice_bases ->
  E (resend_all eve_bases)
    (on_return (fun states =>
       E (measure_all (zip_with measure_in bob_bases states))
         (on_return (undetected alice_bits alice_bases bob_bases))))
  == half_pow (length (List.filter (same_basis alice_bases bob_bases)
                                   (seq 0 (length alice_bases)))).
Proof.
  induction alice_bases as [|basis alice_bases IH];
    intros [|bit alice_bits] [|eve_basis eve_bases] [|bob_basis bob_bases]
           Hbit Hl1 Hl2 Hl3; try discriminate.
  - reflexivity.
  - injection Hl1 as Hl1. injection Hl2 as Hl2. injection Hl3 as Hl3.
    apply Forall_cons in Hbit as [Hbit0 Hbit].
    specialize (IH alice_bits eve_bases bob_bases Hbit Hl1 Hl2 Hl3).
    set (J := fun res : Z => if (basis =? bob_basis)%Z then agree bit res else 1).
    assert (Hx : forall x : Z,
      E (resend_all eve_bases)
        (on_return (fun forwarded =>
           E (measure_all (zip_with measure_in (bob_basis :: bob_bases)
                                    (prepare x eve_basis :: forwarded)))
             (on_return (undetected (bit :: alice_bits) (basis :: alice_bases)
                                    (bob_basis :: bob_bases)))))
      == E (run_one_shot (measure_in bob_basis (prepare x eve_basis))) (on_return J)
         * half_pow (length (List.filter (same_basis alice_bases bob_bases)
                                         (seq 0 (length alice_bases))))).
    { intros x. rewrite <- IH, <- E_scale.
      apply E_on_return_ext. intros forwarded. cbn [zip_with].
      apply E_measure_all_undetected_cons. }
    rewrite resend_all_cons, E_bind_on_return, E_randint_0_1.
    cbn [on_return]. rewrite !E_bind_on_return. cbn [E on_return].
    rewrite !Hx. cbn [length seq List.filter].
    change (same_basis (basis :: alice_bases) (bob_basis :: bob_bases) 0)
      with (basis =? bob_basis)%Z.
    subst J. cbv beta.
    destruct (basis =? bob_basis)%Z; cbn [length];
      rewrite length_filter_same_basis_cons.
    + cbn [half_pow].
      pose proof (E_resend_measure_agree bit bob_basis eve_basis Hbit0) as HJ.
      match goal with
      | |- _ * (?J0 * ?V) + _ * (?J1 * _) == _ =>
          transitivity (((1 # 2) * J0 + (1 - (1 # 2)) * J1) * V); [ring |];
          apply Qmult_comp; [exact HJ | reflexivity]
      end.
    + rewrite !(E_one _ (run_measure_in_returns _ _)). ring.
Qed.

(** Averaged over Bob's bases as well: [(3/4)^n]. *)
Lemma E_kept_half_pow (alice_bases : list Z) :
  Forall is_bit alice_bases ->
  forall indices : list nat,
  length indices = length alice_bases ->
  E (list_comp indices (fun _ => randint 0 1))
    (on_return (fun bob_bases =>
       half_pow (length (List.filter (same_basis alice_bases bob_bases)
                                     (seq 0 (length alice_bases))))))
  == Qpow (3 # 4) (length alice_bases).
Proof.
  induction 1 as [|a0 a Ha0 Ha IH]; intros indices Hlen.
  - destruct indices; [| discriminate]. cbn. reflexivity.
  - destruct indices as [|j indices]; [discriminate |].
    injection Hlen as Hlen. specialize (IH indices Hlen).
    cbn [list_comp]. rewrite E_bind_on_return, E_randint_0_1.
    cbn [on_return length seq Qpow].
    rewrite !E_bind_on_return. cbn [E on_return].
    assert (Hstep : forall b0 : Z,
      E (list_comp indices (fun _ => randint 0 1))
        (on_return (fun bs =>
           half_pow (length (List.filter (same_basis (a0 :: a) (b0 :: bs))
                                         (0%nat :: seq 1 (length a))))))
      == (if (a0 =? b0)%Z then 1 # 2 else 1) * Qpow (3 # 4) (length a)).
    { intros b0. rewrite <- IH, <- E_scale.
      apply E_on_return_ext. intros bs. cbn [List.filter].
      change (same_basis (a0 :: a) (b0 :: bs) 0) with (a0 =? b0)%Z.
      rewrite <- (length_filter_same_basis_cons a0 b0 a bs (length a) 0).
      destruct (a0 =? b0)%Z; cbn [length half_pow]; ring. }
    rewrite !Hstep.
    destruct Ha0 as [-> | ->]; cbn; ring.
Qed.

Lemma Pr_keys_equal_eavesdrop (n_bits : Z) :
  Pr (simulate_bb84 n_bits true)
     (fun t => bool_decide (key_alice t = key_bob t))
  == Qpow (3 # 4) (Z.to_nat n_bits).
Proof.
  rewrite simulate_bb84_eq. unfold Pr, trial.
  rewrite E_bind_on_return.
  eapply E_on_return_const; [apply always_random_bits |].
  intros alice_bits [Hbits Hbit]. cbv beta.
  rewrite E_bind_on_return.
  eapply E_on_return_const; [apply always_random_bits |].
  intros alice_bases [Hbases Hbase]. cbv beta.
  rewrite bind_assoc, E_bind_on_return.
  eapply E_on_return_const; [apply always_random_bits |].
  intros eve_bases [Heve _]. cbv beta.
  rewrite E_bind_on_return.
  transitivity
    (E (resend_all eve_bases)
       (on_return (fun states =>
          E (random_bits n_bits)
            (on_return (fun bob_bases =>
               E (measure_all (zip_with measure_in bob_bases states))
                 (on_return (undetected alice_bits alice_bases bob_bases))))))).
  { apply E_on_return_ext. intros states.
    rewrite E_bind_on_return. apply E_on_return_ext. intros bob_bases.
    rewrite E_bind_on_return. apply E_on_return_ext. intros bob_results.
    cbn [E on_return]. unfold undetected, key_alice, key_bob, kept, range.
    cbn [fst snd]. rewrite Hbases. reflexivity. }
  rewrite E_swap.
  transitivity
    (E (random_bits n_bits)
       (on_return (fun bob_bases =>
          half_pow (length (List.filter (same_basis alice_bases bob_bases)
                                        (seq 0 (length alice_bases))))))).
  { eapply E_ext_always; [apply always_random_bits |].
    intros bob_bases [Hbob _]. cbn [on_return].
    apply E_resend_measure_undetected; congruence. }
  rewrite <- Hbases. unfold random_bits.
  apply E_kept_half_pow; [assumption |].
  unfold range. rewrite length_seq. congruence.
Qed.

End Undetected.

(** X7. With eavesdropping, the two sifted keys come out identical, and
    the returned QBER is 0, with probability exactly [(3/4)^n] for [n]
    qubits: this is the chance that the eavesdropper goes unnoticed. *)
Theorem eavesdropper_unnoticed_probability (n_bits : Z) :
  (Pr (simulate_bb84 n_bits true)
      (fun t => bool_decide (key_alice t = key_bob t))
   == Qpow (3 # 4) (Z.to_nat n_bits))%Q
  /\ (Pr (simulate_bb84 n_bits true) (fun t => Qeq_bool (qber_value t) 0)
      == Qpow (3 # 4) (Z.to_nat n_bits))%Q.
Proof.
  split; [apply Pr_keys_equal_eavesdrop |].
  rewrite <- Pr_keys_equal_eavesdrop. unfold Pr.
  eapply E_ext_always; [apply qber_zero_iff_keys_equal_run |].
  intros t Ht. cbn [on_return]. cbv beta in Ht.
  destruct (Qeq_bool (qber_value t) 0) eqn:Hq; case_bool_decide as Hk;
    try reflexivity; exfalso.
  - apply Qeq_bool_iff in Hq. tauto.
  - apply Qeq_bool_neq in Hq. tauto.
Qed.

(* ===================================================================== *)
(** ** The expected number of errors *)
(* ===================================================================== *)

Section ExpectedErrors.
Local Open Scope Q_scope.

Lemma count_differ_as_rate (l1 l2 : list Z) :
  inject_Z (Z.of_nat (count_differ l1 l2))
  == inject_Z (Z.of_nat (length l1)) * error_rate l1 l2.
Proof.
  unfold error_rate. pose proof (count_differ_le l1 l2) as Hle.
  destruct (length l1) as [|k] eqn:Hlen.
  - replace (count_differ l1 l2) with 0%nat by lia. reflexivity.
  - unfold Qeq. cbn [Qnum Qden Qmult inject_Z].
    rewrite Pos2Z.inj_mul, Zpos_of_nat_S. lia.
Qed.

Lemma E_count_differ_eavesdrop (n_bits : Z) :
  E (simulate_bb84 n_bits true)
    (on_return (fun t =>
       inject_Z (Z.of_nat (count_differ (key_alice t) (key_bob t)))))
  == inject_Z (Z.max 0 n_bits) * (1 # 4).
Proof.
  rewrite simulate_bb84_eq. unfold trial.
  rewrite E_bind_on_return.
  eapply E_on_return_const; [apply always_random_bits |].
  intros alice_bits [Hbits Hbit]. cbv beta.
  rewrite E_bind_on_return.
  eapply E_on_return_const; [apply always_random_bits |].
  intros alice_bases [Hbases Hbase]. cbv beta.
  rewrite bind_assoc, E_bind_on_return.
  eapply E_on_return_const; [apply always_random_bits |].
  intros eve_bases [Heve _]. cbv beta.
  rewrite E_bind_on_return.
  transitivity
    (E (resend_all eve_bases)
       (on_return (fun states =>
          E (random_bits n_bits)
            (on_return (fun bob_bases =>
               let positions := kept n_bits alice_bases bob_bases in
               inject_Z (Z.of_nat (length positions))
               * ((1 # Pos.of_nat (length positions))
                  * Qsum positions
                      (fun i => from_option
                         (fun qc => E (run_one_shot qc)
                                      (on_return (differ (nth i alice_bits 0%Z))))
                         0 (zip_with measure_in bob_bases states !! i)))))))).
  { eapply E_ext_always; [apply always_resend_all_length |].
    intros states Hstates. cbn [on_return].
    rewrite E_bind_on_return.
    eapply E_ext_always; [apply always_random_bits |].
    intros bob_bases [Hbob _]. cbn [on_return]. cbv zeta.
    rewrite E_bind_on_return.
    rewrite <- (E_error_rate_measure n_bits alice_bits alice_bases
                  bob_bases states) by congruence.
    rewrite <- E_scale. apply E_on_return_ext. intros bob_results.
    cbn [E on_return]. unfold key_alice, key_bob. cbn [fst snd].
    rewrite count_differ_as_rate. now rewrite length_pick. }
  rewrite E_swap.
  transitivity
    (E (random_bits n_bits)
       (on_return (fun bob_bases =>
          inject_Z (Z.of_nat (length (kept n_bits alice_bases bob_bases)))
          * (1 # 2)))).
  { eapply E_ext_always; [apply always_random_bits |].
    intros bob_bases [Hbob _]. cbn [on_return]. cbv zeta.
    rewrite E_scale.
    rewrite (E_error_rate_resend n_bits alice_bits alice_bases
               eve_bases bob_bases) by assumption.
    destruct (length (kept n_bits alice_bases bob_bases)); cbn [Nat.eqb];
      [cbn; ring | reflexivity]. }
  rewrite E_scale_r.
  unfold random_bits, kept, range. rewrite <- Hbases.
  rewrite (E_kept_length alice_bases Hbase)
    by (rewrite length_seq; congruence).
  replace (Z.max 0 n_bits) with (Z.of_nat (length alice_bases)) by lia.
  rewrite <- Qmult_assoc. apply Qmult_comp; reflexivity.
Qed.

End ExpectedErrors.

(** X8. With eavesdropping the expected number of positions at which the
    two sifted keys differ is a quarter of the number of qubits sent;
    without eavesdropping it is 0. *)
Theorem expected_number_of_errors (n_bits : Z) :
  (E (simulate_bb84 n_bits true)
     (on_return (fun t =>
        inject_Z (Z.of_nat (count_differ (key_alice t) (key_bob t)))))
   == inject_Z (Z.max 0 n_bits) * (1 # 4))%Q
  /\ (E (simulate_bb84 n_bits false)
        (on_return (fun t =>
           inject_Z (Z.of_nat (count_differ (key_alice t) (key_bob t)))))
      == 0)%Q.
Proof.
  split; [apply E_count_differ_eavesdrop |].
  eapply E_on_return_const; [apply always_simulate_bb84 |].
  intros t (abits & abases & bbases & res & _ & _ & _ & _ & Hagree & Ht).
  cbv zeta in Ht. subst t. unfold key_alice, key_bob. cbn [fst snd].
  replace (pick res (kept n_bits abases bbases))
    with (pick abits (kept n_bits abases bbases)).
  - now rewrite count_differ_same.
  - unfold pick. apply map_ext_in. intros i Hi.
    apply In_kept in Hi as [Hi Hsame]. symmetry. now apply Hagree.
Qed.

(* ===================================================================== *)
(** ** The ten iterations of the notebook *)
(* ===================================================================== *)

Lemma iteration_body_eq (i : nat) (out : stdout) :
  iteration_body i out
  = (result <- simulate_bb84 10 false ;;
     result_eve <- simulate_bb84 10 true ;;
     Ret (out ++ iteration_output i (result, result_eve))).
Proof.
  unfold iteration_body, print, iteration_output.
  apply bind_ext. intros [[key_a key_b] qber].
  apply bind_ext. intros [[key_a_eve key_b_eve] qber_eve].
  now rewrite <- !app_assoc.
Qed.

Lemma length_iteration_output i results : length (iteration_output i results) = 9.
Proof. now destruct results as [[[? ?] ?] [[? ?] ?]]. Qed.

Lemma no_eavesdrop_run (n_bits : Z) :
  always (simulate_bb84 n_bits false)
         (fun t => key_alice t = key_bob t /\ qber_value t = 0%Q).
Proof.
  eapply always_impl; [apply always_simulate_bb84 |].
  intros t (abits & abases & bbases & res & _ & _ & _ & _ & Hagree & Ht).
  cbv zeta in Ht. subst t. unfold key_alice, key_bob, qber_value. cbn [fst snd].
  assert (Heq : pick abits (kept n_bits abases bbases)
                = pick res (kept n_bits abases bbases)).
  { unfold pick. apply map_ext_in. intros i Hi.
    apply In_kept in Hi as [Hi Hsame]. symmetry. now apply Hagree. }
  split; [exact Heq |]. rewrite Heq. apply qber_float_same.
Qed.

Lemma eavesdrop_run (n_bits : Z) :
  always (simulate_bb84 n_bits true)
         (fun t => length (key_alice t) = length (key_bob t)
                   /\ (0 <= qber_value t <= 1)%Q).
Proof.
  eapply always_impl; [apply always_simulate_bb84 |].
  intros t (abits & abases & bbases & res & _ & _ & _ & _ & _ & Ht).
  cbv zeta in Ht. subst t. unfold key_alice, key_bob, qber_value. cbn [fst snd].
  split; [now rewrite !length_pick | apply qber_float_bounds].
Qed.

(** [round(q, 4)] of a float in [0, 1] is in [0, 1]. *)
Lemma py_round_unit (q : Q) :
  (0 <= q <= 1)%Q -> (0 <= py_round q 4 <= 1)%Q.
Proof.
  intros [Hq0 Hq1]. unfold py_round. apply round_double_unit.
  rewrite <- (Qred_correct q) in Hq0, Hq1.
  destruct (Qred q) as [a b]. cbn [Qnum Qden].
  unfold Qle in *. cbn [Qnum Qden] in *.
  change (Z.pos (Z.to_pos (10 ^ 4))) with 10000%Z.
  change (10 ^ 4)%Z with 10000%Z.
  pose proof (round_half_even_ge (a * 10000) (Z.pos b) 0 ltac:(lia) ltac:(lia)).
  pose proof (round_half_even_le (a * 10000) (Z.pos b) 10000 ltac:(lia)
                ltac:(lia)).
  lia.
Qed.

Lemma for_in_ext {S} (xs : list nat) (body body' : nat -> S -> prog S) :
  (forall i s, body i s = body' i s) ->
  forall s, for_in xs body s = for_in xs body' s.
Proof.
  intros Hbody. induction xs as [|x xs IH]; intros s; [reflexivity |].
  cbn [for_in]. rewrite Hbody. apply bind_ext. intros s'. apply IH.
Qed.

(** A loop that appends to the output what [f] makes of a value drawn in
    each iteration prints what [f] makes of the values drawn, in order. *)
Lemma for_in_output {X} (gen : prog X) (f : nat -> X -> stdout) (m : nat) :
  forall (k : nat) (out : stdout),
  for_in (seq k m) (fun i out => x <- gen ;; Ret (out ++ f i x)) out
  = (xs <- list_comp (seq k m) (fun _ => gen) ;;
     Ret (out ++ concat (imap (fun j => f (k + j)) xs))).
Proof.
  induction m as [|m IH]; intros k out.
  - cbn. now rewrite app_nil_r.
  - rewrite <- cons_seq. cbn [for_in list_comp].
    rewrite !bind_assoc. apply bind_ext. intros x.
    rewrite bind_ret_l, IH, bind_assoc. apply bind_ext. intros xs.
    rewrite bind_ret_l, imap_cons. cbn [concat].
    rewrite Nat.add_0_r, <- app_assoc. do 2 f_equal.
    rewrite (imap_ext ((fun j => f (k + j)) ∘ S) (fun j => f (S k + j)));
      [reflexivity |].
    intros j y _. cbn. f_equal. lia.
Qed.

Lemma length_concat_iteration_output
    (results : list ((list Z * list Z * Q) * (list Z * list Z * Q))) :
  forall k,
  length (concat (imap (fun j => iteration_output (k + j)) results))
  = 9 * length results.
Proof.
  induction results as [|r results IH]; intros k; [reflexivity |].
  rewrite imap_cons. cbn [concat length].
  rewrite length_app, length_iteration_output.
  rewrite (imap_ext ((fun j => iteration_output (k + j)) ∘ S)
                    (fun j => iteration_output (S k + j)))
    by (intros j y _; cbn; f_equal; lia).
  rewrite IH. lia.
Qed.

(** X9. The cell that runs the simulations is the program that makes ten
    pairs of runs, [simulate_bb84(10, False)] and then
    [simulate_bb84(10, True)], and prints nine lines for each pair, in
    order: 90 [print] calls, and no run raises. In every pair the keys
    printed without eavesdropping are the same list and the QBER printed,
    [round(qber, 4)], is 0.0; the keys printed with eavesdropping have
    equal lengths and the QBER printed lies in [0, 1]. *)
Theorem run_simulations_output :
  run_simulations
  = (results <- list_comp (range 10)
                  (fun _ => result <- simulate_bb84 10 false ;;
                            result_eve <- simulate_bb84 10 true ;;
                            Ret (result, result_eve)) ;;
     Ret (concat (imap iteration_output results)))
  /\ always (list_comp (range 10)
               (fun _ => result <- simulate_bb84 10 false ;;
                         result_eve <- simulate_bb84 10 true ;;
                         Ret (result, result_eve)))
       (fun results =>
          length results = 10
          /\ length (concat (imap iteration_output results)) = 90
          /\ Forall (fun r =>
               key_alice (fst r) = key_bob (fst r)
               /\ py_round (qber_value (fst r)) 4 = 0%Q
               /\ length (key_alice (snd r)) = length (key_bob (snd r))
               /\ (0 <= py_round (qber_value (snd r)) 4 <= 1)%Q) results)
  /\ always run_simulations (fun out => length out = 90)
  /\ (PrRaise run_simulations == 0)%Q.
Proof.
  set (gen := result <- simulate_bb84 10 false ;;
              result_eve <- simulate_bb84 10 true ;;
              Ret (result, result_eve)).
  set (ok := fun r : (list Z * list Z * Q) * (list Z * list Z * Q) =>
               key_alice (fst r) = key_bob (fst r)
               /\ py_round (qber_value (fst r)) 4 = 0%Q
               /\ length (key_alice (snd r)) = length (key_bob (snd r))
               /\ (0 <= py_round (qber_value (snd r)) 4 <= 1)%Q).
  assert (Heq : run_simulations
                = (results <- list_comp (range 10) (fun _ => gen) ;;
                   Ret (concat (imap iteration_output results)))).
  { unfold run_simulations, range.
    rewrite (for_in_ext _ _
               (fun i out => x <- gen ;; Ret (out ++ iteration_output i x))).
    - now rewrite for_in_output.
    - intros i out. rewrite iteration_body_eq. unfold gen.
      rewrite bind_assoc. apply bind_ext. intros result.
      rewrite bind_assoc. apply bind_ext. intros result_eve.
      now rewrite bind_ret_l. }
  assert (Hgen : always gen ok).
  { unfold gen.
    eapply always_bind; [apply no_eavesdrop_run |].
    intros result [Hkeys Hq].
    eapply always_bind; [apply eavesdrop_run |].
    intros result_eve [Hlens Hrange]. cbn [always]. unfold ok. cbn [fst snd].
    split; [exact Hkeys |]. split; [now rewrite Hq |].
    split; [exact Hlens | now apply py_round_unit]. }
  assert (Hall : always (list_comp (range 10) (fun _ => gen))
                   (fun results =>
                      length results = 10
                      /\ length (concat (imap iteration_output results)) = 90
                      /\ Forall ok results)).
  { eapply always_impl.
    - apply always_list_comp_each with (P := fun _ r => ok r).
      intros _. exact Hgen.
    - cbv beta. intros results Hres.
      assert (Hlen : length results = 10).
      { apply Forall2_length in Hres. now rewrite <- Hres. }
      split; [exact Hlen |]. split.
      + pose proof (length_concat_iteration_output results 0) as Hc.
        change (fun j => iteration_output (0 + j)) with iteration_output in Hc.
        lia.
      + clear Hlen. revert Hres. generalize (range 10). intros l Hres.
        induction Hres; constructor; auto. }
  assert (Hout : always run_simulations (fun out => length out = 90)).
  { rewrite Heq. eapply always_bind; [exact Hall |].
    intros results (_ & Hlen & _). exact Hlen. }
  split; [exact Heq |]. split; [exact Hall |]. split; [exact Hout |].
  eapply always_PrRaise. exact Hout.
Qed.
